(** * stk: configuration interpolation, stack references and template errors

    A shallow embedding of [stk/config.py] and [stk/template.py].

    Python values are a small inductive type, dictionaries used as maps are
    stdpp [gmap]s, dictionaries whose iteration order decides the behaviour
    are association lists, exceptions are values of type [exn], and the
    mutable registry of stack references is threaded as an explicit state.
    Jinja2 and PyYAML are libraries the code calls; the general theorems take
    them as a type class, and the worked examples instantiate the class with
    the fragment of both that the examples use. *)

From Stdlib Require Import Ascii.
From stdpp Require Import gmap strings list fin_maps sorting pretty.

Open Scope string_scope.
Set Warnings "-register-all".

(** ** Python values *)

Inductive value :=
| VNone
| VBool (b : bool)
| VInt (z : Z)
| VStr (s : string)
| VList (l : list value)
| VDict (d : list (string * value)).

(** [", ".join(l)] *)
Fixpoint join (sep : string) (l : list string) : string :=
  match l with
  | [] => ""
  | [x] => x
  | x :: l' => x ++ sep ++ join sep l'
  end.

(** [repr(v)]; string literals are quoted as Python does for strings without
    quotes, backslashes or control characters. *)
Fixpoint py_repr (v : value) : string :=
  match v with
  | VNone => "None"
  | VBool true => "True"
  | VBool false => "False"
  | VInt z => pretty z
  | VStr s => "'" ++ s ++ "'"
  | VList l => "[" ++ join ", " (map py_repr l) ++ "]"
  | VDict d =>
      "{" ++ join ", " (map (λ kv, "'" ++ fst kv ++ "': " ++ py_repr (snd kv)) d) ++ "}"
  end.

(** [str(v)] *)
Definition py_str (v : value) : string :=
  match v with
  | VStr s => s
  | _ => py_repr v
  end.

(** Truth value of an object, as tested by [if not object]. *)
Definition truthy (v : value) : bool :=
  match v with
  | VNone => false
  | VBool b => b
  | VInt z => negb (z =? 0)%Z
  | VStr s => negb (String.eqb s "")
  | VList l => match l with [] => false | _ => true end
  | VDict d => match d with [] => false | _ => true end
  end.

(** ** Dictionaries in insertion order *)

(** [d[k] = v] *)
Fixpoint dict_set (d : list (string * value)) (k : string) (v : value)
  : list (string * value) :=
  match d with
  | [] => [(k, v)]
  | (k', v') :: d' =>
      if String.eqb k' k then (k, v) :: d' else (k', v') :: dict_set d' k v
  end.

(** [{**a, **b}] *)
Definition dict_merge (a b : list (string * value)) : list (string * value) :=
  foldl (λ acc kv, dict_set acc (fst kv) (snd kv)) a b.

(** [s.replace(a, b)] for single characters *)
Fixpoint replace_char (a b : ascii) (s : string) : string :=
  match s with
  | EmptyString => EmptyString
  | String c s' => String (if Ascii.eqb c a then b else c) (replace_char a b s')
  end.

(** ** Exceptions and results *)

(** Instances of [Exception]; [SystemExit] is not one and is kept apart. *)
Inductive exn :=
| KeyError (msg : string)
| UndefinedError (msg : string)
| TemplateSyntaxError (msg : string)
| YAMLError (msg : string)
| TypeError (msg : string)
| AttributeError (msg : string)
| PyException (msg : string).

(** [str(ex)] *)
Definition exn_str (ex : exn) : string :=
  match ex with
  | KeyError msg => "'" ++ msg ++ "'"
  | UndefinedError msg | TemplateSyntaxError msg | YAMLError msg
  | TypeError msg | AttributeError msg | PyException msg => msg
  end.

Inductive result (A : Type) :=
| Ok (a : A)
| Raise (e : exn).
Arguments Ok {A} a.
Arguments Raise {A} e.

Definition rbind {A B} (r : result A) (f : A → result B) : result B :=
  match r with
  | Ok a => f a
  | Raise e => Raise e
  end.

(** A resolved context: [Vars] itself, or the [vars] handed to Jinja2. *)
Abbreviation ctx := (gmap string value).

(** [sorted(...)] on strings; Python orders [str] by code point, which on
    UTF-8 encoded text is the byte-wise order of [String.le]. *)
Definition sorted (l : list string) : list string := merge_sort String.le l.

(** ** Config.InterpolationError *)

Record InterpolationError := mkInterpolationError {
  key : string;
  value_ : value;
  error : exn
}.

(** ** The templating libraries

    [jinja_render src c] is
    [Environment(undefined=StrictUndefined).from_string(src).render(c)] and
    [safe_load] is [yaml.safe_load]. *)

Class Templating := {
  jinja_render : string → ctx → result string;
  safe_load : string → result value
}.

Module Config.

(** [safe_load(str(env.from_string(str(value)).render(c)))], the rendering
    step shared by [Vars.expand] and [InterpolatedDict]. *)
Definition interpolate `{Templating} (v : value) (c : ctx) : result value :=
  rbind (jinja_render (py_str v) c) safe_load.

(** *** Config.Vars *)

Module Vars.

Section defs.
Context `{Templating}.

Definition MAX_INTERPOLATION_DEPTH : nat := 10.

(** The three dictionaries [Vars.expand] mutates: [self], the caller's
    [vars] and the local [errors]. *)
Record state := mkState {
  self : ctx;
  vars : gmap string value;
  errors : gmap string InterpolationError
}.

(** [type(value) in [bool, dict, list, str]] *)
Definition is_templated (v : value) : bool :=
  match v with
  | VBool _ | VDict _ | VList _ | VStr _ => true
  | VNone | VInt _ => false
  end.

(** [sorted(set(vars.keys()) - set(self.keys()))] *)
Definition unexpanded_keys (s : state) : list string :=
  sorted (elements (dom (vars s) ∖ dom (self s))).

(** The body of [for key in unexpanded_keys]. [del errors[key]] is the
    first statement of the [try]: it raises [KeyError] when [key] has no
    recorded error, and the handler then records that [KeyError]. *)
Definition try_key (s : state) (k : string) : state :=
  match vars s !! k with
  | None => s (* [vars[key]] is present for every unexpanded key *)
  | Some v =>
      match errors s !! k with
      | None =>
          mkState (self s) (vars s)
            (<[k := mkInterpolationError k v (KeyError k)]> (errors s))
      | Some _ =>
          let errors' := delete k (errors s) in
          if is_templated v then
            match interpolate v (self s) with
            | Ok r => mkState (<[k := r]> (self s)) (delete k (vars s)) errors'
            | Raise e =>
                mkState (self s) (vars s)
                  (<[k := mkInterpolationError k v e]> errors')
            end
          else mkState (<[k := v]> (self s)) (delete k (vars s)) errors'
      end
  end.

(** One iteration of the [while] loop past the emptiness test. *)
Definition pass (s : state) : state :=
  foldl try_key s (unexpanded_keys s).

(** The [while interpolation_depth <= MAX_INTERPOLATION_DEPTH] loop, by the
    number of iterations it has left: [interpolation_depth] starts at 0 and
    grows by one per iteration, so [MAX_INTERPOLATION_DEPTH + 1] iterations
    are available. The result is the final state and the returned value:
    [None] from the early return, [Some errors] after the loop. *)
Fixpoint expand_loop (remaining : nat) (s : state)
  : state * option (gmap string InterpolationError) :=
  match remaining with
  | O => (s, Some (errors s))
  | S n =>
      match unexpanded_keys s with
      | [] => (s, None)
      | _ => expand_loop n (pass s)
      end
  end.

Definition expand (self0 : ctx) (vars0 : gmap string value) :=
  expand_loop (S MAX_INTERPOLATION_DEPTH) (mkState self0 vars0 ∅).

(** [Vars(vars)]: either the resolved context, or the exception raised
    with the table of failed keys. *)
Inductive outcome :=
| Resolved (c : ctx)
| Failed (failed_keys : gmap string InterpolationError).

(** [__init__]; [if failed_keys] is false for [None] and for an empty
    dictionary. *)
Definition init (vars0 : gmap string value) : outcome :=
  match expand ∅ vars0 with
  | (s, None) => Resolved (self s)
  | (s, Some failed_keys) =>
      if decide (size failed_keys = 0) then Resolved (self s)
      else Failed failed_keys
  end.

(** What the loop body did for a key [k] between the states [s] and [s']:
    it recorded the [KeyError] of [del errors[key]], or it resolved the key
    against a context [c] lying between the two, or it recorded the error
    of rendering the key against such a context. *)
Definition attempted (s s' : state) (k : string) : Prop :=
  ∃ v, vars s !! k = Some v ∧
    match errors s !! k with
    | None =>
        self s' !! k = None ∧ vars s' !! k = Some v
        ∧ errors s' !! k = Some (mkInterpolationError k v (KeyError k))
    | Some _ =>
        (∃ c r, (self s ⊆ c ∧ c ⊆ self s')
           ∧ (if is_templated v then interpolate v c = Ok r else r = v)
           ∧ self s' !! k = Some r ∧ vars s' !! k = None
           ∧ errors s' !! k = None)
        ∨ (∃ c e, (self s ⊆ c ∧ c ⊆ self s')
             ∧ is_templated v = true ∧ interpolate v c = Raise e
             ∧ self s' !! k = None ∧ vars s' !! k = Some v
             ∧ errors s' !! k = Some (mkInterpolationError k v e))
    end.

(** The state [expand] starts from in [__init__], and the state after [n]
    passes of its loop. *)
Definition start (vars0 : gmap string value) : state := mkState ∅ vars0 ∅.

Definition passes (n : nat) (vars0 : gmap string value) : state :=
  Nat.iter n pass (start vars0).

(** The invariant of the loop, for the raw variables [vars0] it was given:
    [vars] only loses keys, every raw key is still in [vars] or already in
    [self], [self] holds raw keys only, and an error is recorded under its
    own key, for a key not yet in [self], with its raw value. *)
Record invariant (vars0 : gmap string value) (s : state) : Prop := {
  inv_vars : ∀ k v, vars s !! k = Some v → vars0 !! k = Some v;
  inv_cover : ∀ k, is_Some (vars0 !! k) → is_Some (vars s !! k) ∨ is_Some (self s !! k);
  inv_self : ∀ k, is_Some (self s !! k) → is_Some (vars0 !! k);
  inv_errors : ∀ k ie, errors s !! k = Some ie →
    key ie = k ∧ vars s !! k = Some (value_ ie) ∧ self s !! k = None
}.

(** Every unexpanded key has a recorded error. *)
Definition complete (s : state) : Prop :=
  ∀ k, is_Some (vars s !! k) → self s !! k = None → is_Some (errors s !! k).

End defs.

End Vars.

(** *** Config.InterpolatedDict *)

Module InterpolatedDict.

Section defs.
Context `{Templating}.

(** [for k, v in object.items()], with [self] the dictionary under
    construction. *)
Fixpoint items_loop (items : list (string * value)) (vars : ctx) (self : ctx)
  : result ctx :=
  match items with
  | [] => Ok self
  | (k, v) :: rest =>
      match v with
      | VNone => items_loop rest vars (<[k := VNone]> self)
      | _ =>
          match interpolate v vars with
          | Ok VNone => items_loop rest vars self
          | Ok parsed_value => items_loop rest vars (<[k := parsed_value]> self)
          | Raise ex =>
              Raise (PyException ("Unable to process " ++ k ++ ", value="
                                  ++ py_str v ++ " : " ++ exn_str ex))
          end
      end
  end.

Definition init (object : value) (vars : ctx) : result ctx :=
  if negb (truthy object) then Ok ∅
  else match object with
       | VDict d => items_loop d vars ∅
       | _ => Raise (PyException (py_str object))
       end.

End defs.

End InterpolatedDict.

(** *** Config.StackRefs *)

Module StackRefs.

(** The published outputs of a deployed stack. *)
Abbreviation outputs := (gmap string string).

(** The stack/deployment-state provider: the outputs of the stack deployed
    under an identifier, [None] when there is no such stack. *)
Class Deployment := { deployed : value → option outputs }.

(** What a call can do: return, raise an [Exception], or leave through
    [exit(code)]. *)
Inductive outcome (A : Type) :=
| Return (a : A)
| Raised (e : exn)
| Exited (code : Z).
Arguments Return {A} a.
Arguments Raised {A} e.
Arguments Exited {A} code.

Definition DEFAULTS : list (string * value) :=
  [("stack_name", VStr "{{ environment }}-{{ name }}"); ("optional", VBool false)].

Module StackRefOpts.

Record t := mk {
  stack_name : value;
  optional : value
}.

(** the keyword call of [StackRefOpts] on [final_opts]: the dataclass takes exactly its two
    fields as keywords. *)
Definition init (final_opts : ctx) : result t :=
  match final_opts !! "stack_name", final_opts !! "optional" with
  | Some n, Some o =>
      if decide (size final_opts = 2) then Ok (mk n o)
      else Raise (TypeError "__init__() got an unexpected keyword argument")
  | _, _ => Raise (TypeError "__init__() missing required positional arguments")
  end.

End StackRefOpts.

Module OptionalStackReference.

(** A stack handle. [_describe_stack_result] is [None] while the attribute
    is absent. [provider_calls] is instrumentation, not a Python attribute:
    it counts the calls this handle made to the provider. The [aws] settings
    are only handed on to the provider and are left out. *)
Record t := mk {
  name : value;
  optional : value;
  _describe_stack_result : option (option outputs);
  provider_calls : nat
}.

Section defs.
Context `{Deployment}.

(** [__init__]; the base [__init__] is taken to keep [name], which
    [StackRefs.output] reads back as [stack.name]. *)
Definition init (name optional : value) : t := mk name optional None 0.

(** Modelled from the spec: [StackReference.describe_stack] of
    basic_stack.py, which is not among the sources, is the one
    existence/description call to the stack/deployment-state provider. *)
Definition super_describe_stack (h : t) : option outputs * t :=
  (deployed (name h),
   mk (name h) (optional h) (_describe_stack_result h) (S (provider_calls h))).

Definition describe_stack (h : t) : option outputs * t :=
  match _describe_stack_result h with
  | None =>
      let '(r, h') := super_describe_stack h in
      (r, mk (name h') (optional h') (Some r) (provider_calls h'))
  | Some r => (r, h)
  end.

(** Modelled from the spec: [StackReference.exists] of basic_stack.py, the
    existence check of a handle, reads [self.describe_stack()]. *)
Definition exists_ (h : t) : bool * t :=
  let '(r, h') := describe_stack h in
  (match r with Some _ => true | None => false end, h').

(** Modelled from the spec: [StackReference.output] of basic_stack.py looks
    the key up among the published outputs read from
    [self.describe_stack()] and fails when it is absent. *)
Definition output (h : t) (output_name : string) : outcome value * t :=
  let '(r, h') := describe_stack h in
  match default ∅ r !! output_name with
  | Some v => (Return (VStr v), h')
  | None =>
      (Raised (KeyError (output_name ++ " not in outputs of " ++ py_str (name h))), h')
  end.

End defs.

End OptionalStackReference.

(** The registry object. [_stacks] is [None] while the attribute is absent.
    [builds] is instrumentation: the number of times [stacks()] ran its
    building loop. [environment] is [self.config.environment]. *)
Record t := mk {
  environment : string;
  refs : list (string * value);
  _stacks : option (gmap string OptionalStackReference.t);
  builds : nat
}.

Section defs.
Context `{Templating} `{Deployment}.

Definition init (stack_refs : list (string * value)) (environment : string) : t :=
  mk environment stack_refs None 0.

(** [for name, cfg in self.refs.items()], with [reg] the dictionary
    [self._stacks] under construction. *)
Fixpoint stacks_loop (environment : string) (items : list (string * value))
    (reg : gmap string OptionalStackReference.t)
  : outcome unit * gmap string OptionalStackReference.t :=
  match items with
  | [] => (Return (), reg)
  | (name, cfg) :: rest =>
      if String.eqb name "environment" then stacks_loop environment rest reg
      else
        let cfg := if truthy cfg then cfg else VDict [] in
        match cfg with
        | VDict d =>
            match InterpolatedDict.init (VDict (dict_merge DEFAULTS d))
                    {[ "environment" := VStr environment;
                       "name" := VStr (replace_char "_" "-" name) ]} with
            | Raise ex => (Exited (-1), reg)
            | Ok final_opts =>
                match StackRefOpts.init final_opts with
                | Raise ex => (Raised ex, reg)
                | Ok opts =>
                    stacks_loop environment rest
                      (<[name := OptionalStackReference.init
                                   (StackRefOpts.stack_name opts)
                                   (StackRefOpts.optional opts)]> reg)
                end
            end
        | _ => (Exited (-1), reg)
        end
  end.

(** [self._stacks] is assigned before the loop, so a loop that is left
    early leaves the handles built so far behind. *)
Definition stacks (sr : t) : outcome (gmap string OptionalStackReference.t) * t :=
  match _stacks sr with
  | Some reg => (Return reg, sr)
  | None =>
      let '(r, reg) := stacks_loop (environment sr) (refs sr) ∅ in
      let sr' := mk (environment sr) (refs sr) (Some reg) (S (builds sr)) in
      match r with
      | Return _ => (Return reg, sr')
      | Raised e => (Raised e, sr')
      | Exited code => (Exited code, sr')
      end
  end.

(** [__contains__] *)
Definition contains (sr : t) (name : string) : outcome bool * t :=
  match stacks sr with
  | (Return reg, sr') => (Return (bool_decide (is_Some (reg !! name))), sr')
  | (Raised e, sr') => (Raised e, sr')
  | (Exited code, sr') => (Exited code, sr')
  end.

Definition stack (sr : t) (name : string) : outcome OptionalStackReference.t * t :=
  match stacks sr with
  | (Return reg, sr') =>
      match reg !! name with
      | None =>
          let stack_names := sorted (map fst (refs sr')) in
          (Raised (PyException
                     ("Attempt to access stack " ++ name
                      ++ ", but it's not defined in config.refs - only "
                      ++ join ", " stack_names ++ " are defined")), sr')
      | Some h => (Return h, sr')
      end
  | (Raised e, sr') => (Raised e, sr')
  | (Exited code, sr') => (Exited code, sr')
  end.

(** A handle is a shared object: what a method call on the handle returned
    by [stack(name)] changes is seen through the registry. *)
Definition store (sr : t) (name : string) (h : OptionalStackReference.t) : t :=
  mk (environment sr) (refs sr) (insert name h <$> _stacks sr) (builds sr).

(** [exists]: [self[name].exists()] *)
Definition exists_ (sr : t) (name : string) : outcome bool * t :=
  match stack sr name with
  | (Return h, sr') =>
      let '(b, h') := OptionalStackReference.exists_ h in
      (Return b, store sr' name h')
  | (Raised e, sr') => (Raised e, sr')
  | (Exited code, sr') => (Exited code, sr')
  end.

Definition output (sr : t) (name output_name : string) : outcome value * t :=
  match stack sr name with
  | (Return h, sr') =>
      let '(b, h') := OptionalStackReference.exists_ h in
      if negb b then
        if truthy (OptionalStackReference.optional h') then
          (Return VNone, store sr' name h')
        else
          (Raised (PyException
                     ("Stack config.refs[" ++ name ++ "] ("
                      ++ py_str (OptionalStackReference.name h')
                      ++ ") does not exist, but is required")),
           store sr' name h')
      else
        let '(r, h'') := OptionalStackReference.output h' output_name in
        (r, store sr' name h'')
  | (Raised e, sr') => (Raised e, sr')
  | (Exited code, sr') => (Exited code, sr')
  end.

(** The operations a caller performs on one registry. *)
Inductive op :=
| OpContains (name : string)
| OpStack (name : string)
| OpExists (name : string)
| OpOutput (name output_name : string).

(** The registry after an operation, whatever its outcome: a caller that
    catches the exception goes on with the same object. *)
Definition step (sr : t) (o : op) : t :=
  match o with
  | OpContains name => snd (contains sr name)
  | OpStack name => snd (stack sr name)
  | OpExists name => snd (exists_ sr name)
  | OpOutput name output_name => snd (output sr name output_name)
  end.

Definition run (sr : t) (ops : list op) : t := foldl step sr ops.

End defs.

(** A handle is consistent when its cached result, if any, is the answer of
    the provider for its target, obtained by its single call. *)
Definition handle_ok `{Deployment} (h : OptionalStackReference.t) : Prop :=
  match OptionalStackReference._describe_stack_result h with
  | None => OptionalStackReference.provider_calls h = 0%nat
  | Some r =>
      r = deployed (OptionalStackReference.name h)
      ∧ OptionalStackReference.provider_calls h = 1%nat
  end.

(** The invariant of a registry made for the references [refs0] in the
    environment [environment0]. *)
Definition registry_ok `{Deployment} (refs0 : list (string * value))
    (environment0 : string) (sr : t) : Prop :=
  refs sr = refs0 ∧ environment sr = environment0
  ∧ match _stacks sr with
    | None => builds sr = 0%nat
    | Some reg =>
        builds sr = 1%nat
        ∧ ∀ name h, reg !! name = Some h →
            handle_ok h ∧ name ∈ map fst refs0 ∧ name ≠ "environment"
    end.

End StackRefs.

End Config.

(** ** template.py *)

(** The newline character. *)
Definition nl : string := String (ascii_of_nat 10) EmptyString.

(** [s.split(sep)] for a single separator character *)
Fixpoint split (sep : ascii) (s : string) : list string :=
  match s with
  | EmptyString => [""]
  | String c s' =>
      if Ascii.eqb c sep then "" :: split sep s'
      else match split sep s' with
           | [] => [String c ""]
           | w :: ws => String c w :: ws
           end
  end.

(** [s.rjust(width)], the padding of [%4d] *)
Definition rjust (width : nat) (s : string) : string :=
  String.concat "" (replicate (width - String.length s) " ") ++ s.

(** [range(a, b)] *)
Definition range (a b : Z) : list Z := seqZ a (b - a)%Z.

(** One entry of a traceback chain: [tb_frame.f_code.co_filename] and
    [tb_lineno]. *)
Record tb_frame := mkFrame {
  co_filename : string;
  tb_lineno : Z
}.

(** A raised exception object with its [__traceback__], a chain linked by
    [tb_next], outermost frame first; the empty chain is [None]. *)
Record raised := mkRaised {
  exc : exn;
  traceback : list tb_frame
}.

Inductive tresult (A : Type) :=
| TOk (a : A)
| TRaise (ex : raised).
Arguments TOk {A} a.
Arguments TRaise {A} ex.

Module FailedTemplate.

Definition ERROR_CONTEXT_LINES : Z := 3.

Record t := mk {
  source : string;
  location : string;
  error : option raised
}.

(** The window of [source_context] over the lines already split. The index
    [i - 1] is within the list for every [i] of the range; the default of
    the lookup is never used. *)
Definition context_lines (lines : list string) (line_no : Z) : list string :=
  let from_line := Z.max 1 (line_no - ERROR_CONTEXT_LINES) in
  let to_line :=
    (Z.min (Z.of_nat (length lines)) (line_no + ERROR_CONTEXT_LINES) - 1)%Z in
  map (λ i, rjust 4 (pretty i) ++ " : " ++ default "" (lines !! Z.to_nat (i - 1)%Z))
      (range from_line to_line).

Definition source_context (self : t) (line_no : Z) : string :=
  join nl (context_lines (split (ascii_of_nat 10) (source self)) line_no).

(** The [while traceback] loop: the chain from the first frame whose file
    name is [<template>] on (empty when there is none), and [last_frame]. *)
Fixpoint find_template (traceback last_frame : list tb_frame)
  : list tb_frame * list tb_frame :=
  match traceback with
  | [] => ([], last_frame)
  | f :: tb_next =>
      if String.eqb (co_filename f) "<template>" then (traceback, last_frame)
      else find_template tb_next traceback
  end.

(** [__str__] *)
Definition str (self : t) : result string :=
  match error self with
  | None => Raise (AttributeError "'NoneType' object has no attribute '__traceback__'")
  | Some ex =>
      let '(tb, last_frame) := find_template (traceback ex) (traceback ex) in
      match tb with
      | [] =>
          match last_frame with
          | [] => Raise (AttributeError "'NoneType' object has no attribute 'tb_lineno'")
          | f :: _ =>
              Ok ("Error occurred outsite of template" ++ nl ++ exn_str (exc ex)
                  ++ nl ++ co_filename f ++ ":" ++ pretty (tb_lineno f))
          end
      | f :: _ =>
          let line_no := tb_lineno f in
          Ok (exn_str (exc ex) ++ nl ++ location self ++ " at line "
              ++ pretty line_no ++ ":" ++ nl ++ nl ++ source_context self line_no
              ++ nl ++ nl)
      end
  end.

End FailedTemplate.

(** The helpers a template can call: the names of the custom helpers loaded
    next to the core ones. *)
Record TemplateHelpers := mkHelpers {
  custom_helpers : list string
}.

(** The libraries behind [Template.render]: [template_render helpers src c]
    is [env.from_string(source=src).render(c)] on the environment built with
    [line_statement_prefix="##"], strict undefined names and the helpers
    injected; [load_yaml] is [cfn_tools.load_yaml]; [dict_update parsed] is
    [dict.update(parsed)] on an empty dictionary. What they raise is an
    instance of [Exception]. *)
Class TemplateEngine := {
  template_render : option TemplateHelpers → string → ctx → tresult string;
  load_yaml : string → tresult value;
  dict_update : value → tresult (list (string * value))
}.

Module RenderedTemplate.

Record t := mk {
  content : string;
  mapping : list (string * value)
}.

Definition init `{TemplateEngine} (content : string) : tresult t :=
  match load_yaml content with
  | TRaise ex => TRaise ex
  | TOk parsed =>
      if truthy parsed then
        match dict_update parsed with
        | TRaise ex => TRaise ex
        | TOk d => TOk (mk content d)
        end
      else TOk (mk content [])
  end.

Definition str (self : t) : string := content self.

End RenderedTemplate.

Module Template.

(** [provider.template()] decoded as UTF-8, or what that raised, and
    [str(provider)]. *)
Record GenericProvider := mkProvider {
  template : tresult string;
  provider_str : string
}.

Record t := mk {
  provider : GenericProvider;
  helpers : option TemplateHelpers
}.

(** How a call of [render] ends. *)
Inductive outcome :=
| Rendered (r : RenderedTemplate.t)
| ReturnedFailed (template : FailedTemplate.t)
| TemplateRenderingException (template : FailedTemplate.t)
| Propagated (ex : raised).

(** [content or raw_template] *)
Definition content_or (content : option string) (raw_template : string) : string :=
  match content with
  | None => raw_template
  | Some c => if String.eqb c "" then raw_template else c
  end.

(** The [except Exception as ex] handler. *)
Definition handler (self : t) (content : option string) (raw_template : string)
    (fail_on_error : bool) (ex : raised) : outcome :=
  let template :=
    FailedTemplate.mk (content_or content raw_template)
      (provider_str (provider self)) (Some ex) in
  if fail_on_error then TemplateRenderingException template
  else ReturnedFailed template.

Definition render `{TemplateEngine} (self : t) (vars : ctx) (fail_on_error : bool)
  : outcome :=
  match template (provider self) with
  | TRaise ex => Propagated ex
  | TOk raw_template =>
      match template_render (helpers self) raw_template vars with
      | TRaise ex => handler self None raw_template fail_on_error ex
      | TOk content =>
          match RenderedTemplate.init content with
          | TOk r => Rendered r
          | TRaise ex => handler self (Some content) raw_template fail_on_error ex
          end
      end
  end.

End Template.

(** ** A fragment of Jinja2 and YAML for the worked examples

    Templates are literal text with [{{ name }}] placeholders, rendered with
    strict undefined names; rendered texts are single plain YAML scalars made
    of letters, digits, [_] and [-]. *)

Module Fragment.

Inductive segment :=
| Lit (a : ascii)
| Var (name : string).

Definition is_name_char (a : ascii) : bool :=
  let n := N_of_ascii a in
  ((48 <=? n) && (n <=? 57) || (65 <=? n) && (n <=? 90)
   || (97 <=? n) && (n <=? 122) || (n =? 95))%N.

Definition is_digit (a : ascii) : bool :=
  let n := N_of_ascii a in ((48 <=? n) && (n <=? 57))%N.

Fixpoint forallb_string (p : ascii → bool) (s : string) : bool :=
  match s with
  | EmptyString => true
  | String a s' => p a && forallb_string p s'
  end.

Fixpoint lstrip (s : string) : string :=
  match s with
  | String " " s' => lstrip s'
  | _ => s
  end.

(** [s.strip(" ")] *)
Definition strip (s : string) : string :=
  String.rev (lstrip (String.rev (lstrip s))).

(** The lexer: [expr] is [None] in literal text and holds the characters read
    so far inside a [{{ ... }}] placeholder. An expression that is not a
    plain name lies outside the fragment and is reported as a syntax error. *)
Fixpoint parse (s : string) (expr : option string) : result (list segment) :=
  match expr, s with
  | None, EmptyString => Ok []
  | None, String "{" (String "{" rest) => parse rest (Some "")
  | None, String a rest => rbind (parse rest None) (λ l, Ok (Lit a :: l))
  | Some e, EmptyString => Raise (TemplateSyntaxError "unexpected end of template")
  | Some e, String "}" (String "}" rest) =>
      let name := strip e in
      if forallb_string is_name_char name && negb (String.eqb name "") then
        rbind (parse rest None) (λ l, Ok (Var name :: l))
      else Raise (TemplateSyntaxError "expected a name")
  | Some e, String a rest => parse rest (Some (e ++ String a ""))
  end.

Fixpoint render_segments (c : ctx) (l : list segment) : result string :=
  match l with
  | [] => Ok ""
  | Lit a :: l' => rbind (render_segments c l') (λ out, Ok (String a out))
  | Var name :: l' =>
      match c !! name with
      | None => Raise (UndefinedError ("'" ++ name ++ "' is undefined"))
      | Some v => rbind (render_segments c l') (λ out, Ok (py_str v ++ out))
      end
  end.

Definition render (src : string) (c : ctx) : result string :=
  rbind (parse src None) (render_segments c).

(** Decimal digits to a number, most significant first. *)
Fixpoint digits_value (acc : Z) (s : string) : Z :=
  match s with
  | EmptyString => acc
  | String a s' => digits_value (10 * acc + Z.of_N (N_of_ascii a - 48)) s'
  end.

(** [0] or a digit string without a leading zero. *)
Definition is_decimal (s : string) : bool :=
  match s with
  | EmptyString => false
  | String "0" EmptyString => true
  | String "0" _ => false
  | _ => forallb_string is_digit s
  end.

Definition yaml_null : list string := [""; "~"; "null"; "Null"; "NULL"].
Definition yaml_true : list string :=
  ["yes"; "Yes"; "YES"; "true"; "True"; "TRUE"; "on"; "On"; "ON"].
Definition yaml_false : list string :=
  ["no"; "No"; "NO"; "false"; "False"; "FALSE"; "off"; "Off"; "OFF"].

(** The YAML 1.1 resolution of a plain scalar, as PyYAML's [safe_load] does
    it: null, boolean, decimal integer, or the text itself. Texts that start
    with a digit or [-] and are no decimal integer (other bases, dates,
    sequence entries), and texts with other characters than letters, digits,
    [_] and [-], lie outside the fragment. *)
Definition load (s : string) : result value :=
  if bool_decide (s ∈ yaml_null) then Ok VNone
  else if bool_decide (s ∈ yaml_true) then Ok (VBool true)
  else if bool_decide (s ∈ yaml_false) then Ok (VBool false)
  else if negb (forallb_string (λ a, is_name_char a || Ascii.eqb a "-") s) then
    Raise (YAMLError "outside the fragment")
  else if is_decimal s then Ok (VInt (digits_value 0 s))
  else match s with
       | String "-" s' =>
           if is_decimal s' then Ok (VInt (- digits_value 0 s'))
           else Raise (YAMLError "outside the fragment")
       | String a _ =>
           if is_digit a then Raise (YAMLError "outside the fragment")
           else Ok (VStr s)
       | EmptyString => Ok VNone
       end.

#[export] Instance templating : Templating := {|
  jinja_render := render;
  safe_load := load
|}.

End Fragment.

(** ** Worked examples *)

Module Examples.

(** [{a: "1", b: "{{a}}2", c: "{{b}}3"}], what it resolves to, and the
    context with the texts ["12"] and ["123"] kept as strings. *)
Definition chain : gmap string value :=
  {[ "a" := VStr "1"; "b" := VStr "{{a}}2"; "c" := VStr "{{b}}3" ]}.

Definition chain_resolved : ctx :=
  {[ "a" := VInt 1; "b" := VInt 12; "c" := VInt 123 ]}.

Definition chain_as_text : ctx :=
  {[ "a" := VInt 1; "b" := VStr "12"; "c" := VStr "123" ]}.

Definition chain_lvl (k : string) : nat :=
  if String.eqb k "a" then 0 else if String.eqb k "b" then 1 else 2.

(** [{a: "1"}], a dependency chain of length one. *)
Definition single : gmap string value := {[ "a" := VStr "1" ]}.

(** [{a: "{{b}}", b: "{{a}}"}] *)
Definition loop : gmap string value :=
  {[ "a" := VStr "{{b}}"; "b" := VStr "{{a}}" ]}.

(** No stack is deployed. *)
#[export] Instance nothing_deployed : Config.StackRefs.Deployment :=
  {| Config.StackRefs.deployed := λ _, None |}.

(** [{"foo": None}], a required reference with all defaults, and the
    registry and handle [stack("foo")] yields for it in [dev]. *)
Definition required_refs : list (string * value) := [("foo", VNone)].

Definition required_handle : Config.StackRefs.OptionalStackReference.t :=
  Config.StackRefs.OptionalStackReference.mk (VStr "dev-foo") (VBool false) None 0.

Definition required_registry : Config.StackRefs.t :=
  Config.StackRefs.mk "dev" required_refs (Some {[ "foo" := required_handle ]}) 1.

(** [{"foo": {"stack_name": "something-{{ environment }}-else",
    "optional": True}}] *)
Definition optional_refs : list (string * value) :=
  [("foo", VDict [("stack_name", VStr "something-{{ environment }}-else");
                  ("optional", VBool true)])].

Definition optional_handle : Config.StackRefs.OptionalStackReference.t :=
  Config.StackRefs.OptionalStackReference.mk (VStr "something-dev-else") (VBool true) None 0.

Definition optional_registry : Config.StackRefs.t :=
  Config.StackRefs.mk "dev" optional_refs (Some {[ "foo" := optional_handle ]}) 1.

(** Only [bar] and [baz] are declared. *)
Definition bar_baz : list (string * value) := [("baz", VNone); ("bar", VNone)].

Definition bar_baz_handles : gmap string Config.StackRefs.OptionalStackReference.t :=
  {[ "baz" := Config.StackRefs.OptionalStackReference.mk (VStr "dev-baz") (VBool false) None 0;
     "bar" := Config.StackRefs.OptionalStackReference.mk (VStr "dev-bar") (VBool false) None 0 ]}.

(** References that declare [environment] next to [foo]. *)
Definition with_environment : list (string * value) :=
  [("foo", VNone); ("environment", VStr "dev")].

(** A dictionary with a null value, a text that is an explicit YAML null, an
    empty text, and a template; and the context it is rendered in. *)
Definition nulls : list (string * value) :=
  [("kept", VNone); ("explicit", VStr "null"); ("nothing", VStr "");
   ("text", VStr "{{ environment }}")].

Definition nulls_vars : ctx := {[ "environment" := VStr "dev" ]}.

Definition nulls_result : ctx := {[ "kept" := VNone; "text" := VStr "dev" ]}.

(** A template engine on the fragment: every error is raised from line 1 of
    the template, below the frame of [Template.render]. *)
Definition in_template {A} (r : result A) : tresult A :=
  match r with
  | Ok a => TOk a
  | Raise e => TRaise (mkRaised e [mkFrame "stk/template.py" 85; mkFrame "<template>" 1])
  end.

#[export] Instance engine : TemplateEngine := {|
  template_render := λ _ src c, in_template (Fragment.render src c);
  load_yaml := λ text, in_template (Fragment.load text);
  dict_update := λ parsed,
    match parsed with
    | VDict d => TOk d
    | _ => in_template (Raise (TypeError "cannot convert dictionary update sequence"))
    end
|}.

(** A template that names an undefined variable. *)
Definition undefined_template : Template.t :=
  Template.mk (Template.mkProvider (TOk "{{ x }}") "tpl.yaml") None.

(** A template of ten lines with an error raised while line 6 is
    evaluated, under the frame of a helper. *)
Definition ten_lines : string :=
  join nl ["l1"; "l2"; "l3"; "l4"; "l5"; "l6"; "l7"; "l8"; "l9"; "l10"].

Definition failed_at_6 : FailedTemplate.t :=
  FailedTemplate.mk ten_lines "tpl.yaml"
    (Some (mkRaised (UndefinedError "'x' is undefined")
             [mkFrame "stk/template.py" 85; mkFrame "<template>" 6;
              mkFrame "helpers.py" 12])).

End Examples.

(** ** Further examples *)

Module MoreExamples.

(** Raw variables that are not templated. *)
Definition plain_vars : gmap string value :=
  {[ "count" := VInt 3; "nothing" := VNone ]}.

(** Eleven variables, each but [k] the value of the one sorted after it. *)
Definition deep_keys : list string :=
  ["k"; "j"; "i"; "h"; "g"; "f"; "e"; "d"; "c"; "b"; "a"].

Definition deep : gmap string value :=
  {[ "k" := VStr "1"; "j" := VStr "{{k}}"; "i" := VStr "{{j}}";
     "h" := VStr "{{i}}"; "g" := VStr "{{h}}"; "f" := VStr "{{g}}";
     "e" := VStr "{{f}}"; "d" := VStr "{{e}}"; "c" := VStr "{{d}}";
     "b" := VStr "{{c}}"; "a" := VStr "{{b}}" ]}.

(** The same chain with each variable the value of the one sorted before
    it. *)
Definition shallow : gmap string value :=
  {[ "a" := VStr "1"; "b" := VStr "{{a}}"; "c" := VStr "{{b}}";
     "d" := VStr "{{c}}"; "e" := VStr "{{d}}"; "f" := VStr "{{e}}";
     "g" := VStr "{{f}}"; "h" := VStr "{{g}}"; "i" := VStr "{{h}}";
     "j" := VStr "{{i}}"; "k" := VStr "{{j}}" ]}.

End MoreExamples.

(** * Properties *)

(** ** Config.Vars: what one pass of the loop does *)

Section vars_pass.
Context `{Templating}.
Import Config Config.Vars.

Implicit Types (s : state) (k : string) (l : list string).

Lemma try_key_other s k k' :
  k' ≠ k →
  self (try_key s k) !! k' = self s !! k'
  ∧ vars (try_key s k) !! k' = vars s !! k'
  ∧ errors (try_key s k) !! k' = errors s !! k'.
Proof.
  intros Hne. unfold try_key.
  destruct (vars s !! k) as [v|]; [|done].
  destruct (errors s !! k); [destruct (is_templated v); [destruct (interpolate v (self s))|]|];
    simpl; rewrite ?lookup_insert_ne, ?lookup_delete_ne by done; done.
Qed.

Lemma try_key_self_mono s k :
  self s !! k = None → self s ⊆ self (try_key s k).
Proof.
  intros Hk. unfold try_key.
  destruct (vars s !! k) as [v|]; [|done].
  destruct (errors s !! k); [destruct (is_templated v); [destruct (interpolate v (self s))|]|];
    simpl; try done; by apply insert_subseteq.
Qed.

Lemma foldl_try_key_other l s k' :
  k' ∉ l →
  self (foldl try_key s l) !! k' = self s !! k'
  ∧ vars (foldl try_key s l) !! k' = vars s !! k'
  ∧ errors (foldl try_key s l) !! k' = errors s !! k'.
Proof.
  revert s. induction l as [|k l IH]; intros s Hk'; [done|].
  apply not_elem_of_cons in Hk' as [Hne Hk']. simpl.
  destruct (IH (try_key s k) Hk') as (-> & -> & ->).
  by apply try_key_other.
Qed.

(** What the loop body did for a key [k] it visited between the states [s]
    and [s']: recorded the [KeyError] of [del errors[key]], resolved the key
    against a context [c] between the two, or recorded the error of
    rendering it against such a context. *)
Lemma try_key_attempted s k v :
  vars s !! k = Some v → self s !! k = None →
  attempted s (try_key s k) k.
Proof.
  intros Hv Hs. exists v. split; [done|]. unfold try_key. rewrite Hv.
  destruct (errors s !! k) as [ie|] eqn:He.
  - destruct (is_templated v) eqn:Ht; [destruct (interpolate v (self s)) as [r|e] eqn:Hi|].
    + left. exists (self s), r. cbn [self vars errors]. split_and!; try done.
      * by apply insert_subseteq.
      * by rewrite lookup_insert_eq.
      * by rewrite lookup_delete_eq.
      * by rewrite lookup_delete_eq.
    + right. exists (self s), e. cbn [self vars errors]. split_and!; try done.
      by rewrite lookup_insert_eq.
    + left. exists (self s), v. cbn [self vars errors]. split_and!; try done.
      * by apply insert_subseteq.
      * by rewrite lookup_insert_eq.
      * by rewrite lookup_delete_eq.
      * by rewrite lookup_delete_eq.
  - cbn [self vars errors]. split_and!; try done. by rewrite lookup_insert_eq.
Qed.

Lemma attempted_weaken s0 s1 s' k :
  self s0 ⊆ self s1 →
  vars s0 !! k = vars s1 !! k → errors s0 !! k = errors s1 !! k →
  attempted s1 s' k → attempted s0 s' k.
Proof.
  intros Hsub Hv He (v & Hv1 & Hcase). exists v. rewrite Hv, He. split; [done|].
  destruct (errors s1 !! k); [|done].
  destruct Hcase as [(c & r & [Hc1 Hc2] & ?)|(c & e & [Hc1 Hc2] & ?)].
  - left. exists c, r. split; [split; [by etrans|done]|done].
  - right. exists c, e. split; [split; [by etrans|done]|done].
Qed.

Lemma attempted_later s s1 s' k :
  self s1 ⊆ self s' →
  self s1 !! k = self s' !! k → vars s1 !! k = vars s' !! k →
  errors s1 !! k = errors s' !! k →
  attempted s s1 k → attempted s s' k.
Proof.
  intros Hsub Hs Hv He (v & Hv1 & Hcase). exists v. split; [done|].
  rewrite <-Hs, <-Hv, <-He.
  destruct (errors s !! k); [|done].
  destruct Hcase as [(c & r & [Hc1 Hc2] & ?)|(c & e & [Hc1 Hc2] & ?)].
  - left. exists c, r. split; [split; [done|by etrans]|done].
  - right. exists c, e. split; [split; [done|by etrans]|done].
Qed.

Lemma foldl_try_key_spec l s :
  NoDup l →
  (∀ k, k ∈ l → is_Some (vars s !! k) ∧ self s !! k = None) →
  self s ⊆ self (foldl try_key s l)
  ∧ ∀ k, k ∈ l → attempted s (foldl try_key s l) k.
Proof.
  revert s. induction l as [|k0 l IH]; intros s Hnd Hl; simpl.
  { split; [done|]. intros k Hk. by apply elem_of_nil in Hk. }
  apply NoDup_cons in Hnd as [Hk0 Hnd].
  destruct (Hl k0) as [[v0 Hv0] Hs0]; [by left|].
  pose proof (try_key_self_mono s k0 Hs0) as Hmono.
  destruct (IH (try_key s k0) Hnd) as [Hsub Hatt].
  { intros k Hk. assert (k ≠ k0) as Hne by (intros ->; done).
    destruct (try_key_other s k0 k Hne) as (-> & -> & _).
    apply Hl. by right. }
  split; [by etrans|].
  intros k [->|Hk]%elem_of_cons.
  - destruct (foldl_try_key_other l (try_key s k0) k0 Hk0) as (Hs & Hv & He).
    eapply attempted_later; [done|done..|].
    by eapply try_key_attempted.
  - assert (k ≠ k0) as Hne by (intros ->; done).
    destruct (try_key_other s k0 k Hne) as (_ & Hv & He).
    eapply attempted_weaken; [done|done..|]. by apply Hatt.
Qed.

Lemma unexpanded_keys_NoDup s : NoDup (unexpanded_keys s).
Proof.
  unfold unexpanded_keys, sorted.
  rewrite merge_sort_Permutation. apply NoDup_elements.
Qed.

Lemma elem_of_unexpanded_keys s k :
  k ∈ unexpanded_keys s ↔ is_Some (vars s !! k) ∧ self s !! k = None.
Proof.
  unfold unexpanded_keys, sorted.
  rewrite merge_sort_Permutation, elem_of_elements, elem_of_difference.
  by rewrite !elem_of_dom, <-eq_None_not_Some.
Qed.

Lemma pass_spec s :
  self s ⊆ self (pass s)
  ∧ (∀ k, k ∈ unexpanded_keys s → attempted s (pass s) k)
  ∧ (∀ k, k ∉ unexpanded_keys s →
       self (pass s) !! k = self s !! k
       ∧ vars (pass s) !! k = vars s !! k
       ∧ errors (pass s) !! k = errors s !! k).
Proof.
  unfold pass.
  destruct (foldl_try_key_spec (unexpanded_keys s) s) as [Hsub Hatt].
  { apply unexpanded_keys_NoDup. }
  { intros k. apply elem_of_unexpanded_keys. }
  split_and!; [done|done|]. intros k. apply foldl_try_key_other.
Qed.

End vars_pass.

(** ** Config.Vars: invariants of the loop *)

Section vars_invariant.
Context `{Templating}.
Import Config Config.Vars.

Implicit Types (s : state) (k : string).

Lemma pass_ind (P : state → Prop) :
  (∀ s k, P s → P (try_key s k)) → ∀ s, P s → P (pass s).
Proof.
  intros Hstep s. unfold pass. generalize (unexpanded_keys s) as l.
  intros l. revert s. induction l as [|k l IH]; intros s Hs; simpl; auto.
Qed.

Lemma iter_pass_ind (P : state → Prop) :
  (∀ s k, P s → P (try_key s k)) → ∀ n s, P s → P (Nat.iter n pass s).
Proof.
  intros Hstep n s Hs. induction n as [|n IH]; simpl; [done|].
  by apply pass_ind.
Qed.

Lemma pass_fixed s : unexpanded_keys s = [] → pass s = s.
Proof. unfold pass. by intros ->. Qed.

Lemma iter_pass_fixed n s : unexpanded_keys s = [] → Nat.iter n pass s = s.
Proof.
  intros Hs. induction n as [|n IH]; simpl; [done|]. rewrite IH. by apply pass_fixed.
Qed.

Lemma iter_pass_fixed_le (n m : nat) s :
  (n ≤ m)%nat → unexpanded_keys (Nat.iter n pass s) = [] →
  Nat.iter m pass s = Nat.iter n pass s.
Proof.
  intros Hle Hs. replace m with ((m - n) + n) by lia.
  rewrite Nat.iter_add. by apply iter_pass_fixed.
Qed.

(** The loop returns the state after all the passes it has left: a pass over
    no key changes nothing. *)
Lemma expand_loop_state n s :
  expand_loop n s = (Nat.iter n pass s, None)
    ∧ unexpanded_keys (Nat.iter n pass s) = []
  ∨ expand_loop n s = (Nat.iter n pass s, Some (errors (Nat.iter n pass s))).
Proof.
  revert s. induction n as [|n IH]; intros s; [by right|].
  rewrite Nat.iter_succ_r. simpl.
  destruct (unexpanded_keys s) eqn:Hs.
  - left. rewrite (pass_fixed s Hs), (iter_pass_fixed n s Hs). done.
  - apply IH.
Qed.

Lemma expand_loop_exhausted n s :
  unexpanded_keys (Nat.iter n pass s) ≠ [] →
  expand_loop n s = (Nat.iter n pass s, Some (errors (Nat.iter n pass s))).
Proof.
  intros Hne. destruct (expand_loop_state n s) as [[_ Hs]|Hs]; done.
Qed.

Lemma invariant_start (vars0 : gmap string value) : invariant vars0 (start vars0).
Proof.
  split; simpl.
  - done.
  - intros k Hk. by left.
  - intros k [v Hv]. by rewrite lookup_empty in Hv.
  - intros k ie Hie. by rewrite lookup_empty in Hie.
Qed.

Lemma invariant_pass (vars0 : gmap string value) s : invariant vars0 s → invariant vars0 (pass s).
Proof.
  intros [Hvars Hcover Hself Herr].
  destruct (pass_spec s) as (Hmono & Hatt & Hframe).
  assert (∀ k, k ∈ unexpanded_keys s ∨ k ∉ unexpanded_keys s) as Hdec.
  { intros k. destruct (decide (k ∈ unexpanded_keys s)); auto. }
  split.
  - intros k v Hv. destruct (Hdec k) as [Hk|Hk].
    + destruct (Hatt k Hk) as (v' & Hv' & Hcase).
      destruct (errors s !! k).
      * destruct Hcase as [(c & r & _ & _ & _ & Hn & _)|(c & e & _ & _ & _ & _ & Hs & _)];
          simplify_eq; eauto.
      * destruct Hcase as (_ & ? & _). simplify_eq; eauto.
    + destruct (Hframe k Hk) as (_ & Hv' & _). rewrite Hv' in Hv. eauto.
  - intros k Hk. destruct (Hdec k) as [Hu|Hu].
    + destruct (Hatt k Hu) as (v' & Hv' & Hcase).
      destruct (errors s !! k).
      * destruct Hcase as [(c & r & _ & _ & Hr & _)|(c & e & _ & _ & _ & _ & Hs & _)];
          [right|left]; eauto.
      * destruct Hcase as (_ & ? & _). left; eauto.
    + destruct (Hframe k Hu) as (Hs & Hv & _). rewrite Hs, Hv. auto.
  - intros k Hk. destruct (Hdec k) as [Hu|Hu].
    + apply elem_of_unexpanded_keys in Hu as [[v Hv] _]. eauto.
    + destruct (Hframe k Hu) as (Hs & _). rewrite Hs in Hk. auto.
  - intros k ie Hie. destruct (Hdec k) as [Hu|Hu].
    + destruct (Hatt k Hu) as (v' & Hv' & Hcase).
      destruct (errors s !! k).
      * destruct Hcase as [(c & r & _ & _ & _ & _ & He)|(c & e & _ & _ & _ & Hs & Hv & He)];
          simplify_eq; done.
      * destruct Hcase as (? & ? & ?). simplify_eq; done.
    + destruct (Hframe k Hu) as (Hs & Hv & He). rewrite He in Hie.
      destruct (Herr k ie Hie) as (? & ? & ?). exfalso. apply Hu.
      apply elem_of_unexpanded_keys. eauto.
Qed.

Lemma invariant_passes (vars0 : gmap string value) n : invariant vars0 (passes n vars0).
Proof.
  unfold passes. induction n as [|n IH]; simpl.
  - apply invariant_start.
  - by apply invariant_pass.
Qed.

(** After a pass every key still unexpanded has a recorded error. *)
Lemma complete_pass s : complete (pass s).
Proof.
  destruct (pass_spec s) as (Hmono & Hatt & Hframe).
  intros k Hv Hs. destruct (decide (k ∈ unexpanded_keys s)) as [Hu|Hu].
  - destruct (Hatt k Hu) as (v' & Hv' & Hcase).
    destruct (errors s !! k).
    + destruct Hcase as [(c & r & _ & _ & Hr & _)|(c & e & _ & _ & _ & _ & _ & He)];
        [congruence|eauto].
    + destruct Hcase as (_ & _ & He). eauto.
  - destruct (Hframe k Hu) as (Hs' & Hv' & _). exfalso. apply Hu.
    apply elem_of_unexpanded_keys. by rewrite <-Hs', <-Hv'.
Qed.

(** Past a complete state, the errors a pass leaves are rendering errors of
    that pass, against a context between its first state and its last. *)
Lemma pass_errors (vars0 : gmap string value) s k ie :
  invariant vars0 s → complete s →
  errors (pass s) !! k = Some ie →
  ie = mkInterpolationError k (value_ ie) (error ie)
  ∧ vars0 !! k = Some (value_ ie)
  ∧ ∃ c, self s ⊆ c ∧ c ⊆ self (pass s)
      ∧ interpolate (value_ ie) c = Raise (error ie).
Proof.
  intros Hinv Hcomplete Hie.
  destruct (pass_spec s) as (Hmono & Hatt & Hframe).
  destruct (decide (k ∈ unexpanded_keys s)) as [Hu|Hu].
  - destruct (Hatt k Hu) as (v & Hv & Hcase).
    apply elem_of_unexpanded_keys in Hu as [Hu1 Hu2].
    destruct (Hcomplete k Hu1 Hu2) as [ie' Hie']. rewrite Hie' in Hcase.
    destruct Hcase as [(c & r & _ & _ & _ & _ & He)|(c & e & [Hc1 Hc2] & _ & Hi & _ & _ & He)];
      [congruence|].
    rewrite He in Hie. injection Hie as <-. simpl. split_and!; [done| |by eauto].
    by apply (inv_vars _ _ Hinv).
  - destruct (Hframe k Hu) as (_ & _ & He). rewrite He in Hie.
    destruct (inv_errors _ _ Hinv k ie Hie) as (? & ? & ?). exfalso. apply Hu.
    apply elem_of_unexpanded_keys. eauto.
Qed.

(** When nothing is left unexpanded, no error is left either. *)
Lemma errors_empty (vars0 : gmap string value) s :
  invariant vars0 s → unexpanded_keys s = [] → errors s = ∅.
Proof.
  intros Hinv Hs. apply map_empty. intros k.
  destruct (errors s !! k) as [ie|] eqn:Hie; [|done].
  destruct (inv_errors _ _ Hinv k ie Hie) as (_ & Hv & Hself).
  assert (k ∈ unexpanded_keys s) as Hk by (apply elem_of_unexpanded_keys; eauto).
  rewrite Hs in Hk. by apply elem_of_nil in Hk.
Qed.

(** The first pass resolves nothing: [errors] is empty when [expand]
    starts, so [del errors[key]] raises for every key. *)
Lemma first_pass_resolves_nothing (vars0 : gmap string value) :
  self (passes 1 vars0) = ∅ ∧ vars (passes 1 vars0) = vars0.
Proof.
  change (passes 1 vars0) with (pass (start vars0)).
  destruct (pass_spec (start vars0)) as (_ & Hatt & Hframe).
  assert (∀ k, self (pass (start vars0)) !! k = None
               ∧ vars (pass (start vars0)) !! k = vars0 !! k) as Hk.
  { intros k. destruct (decide (k ∈ unexpanded_keys (start vars0))) as [Hu|Hu].
    - destruct (Hatt k Hu) as (v & Hv & Hcase). simpl in Hv, Hcase.
      rewrite lookup_empty in Hcase. destruct Hcase as (-> & -> & _). done.
    - destruct (Hframe k Hu) as (-> & -> & _). simpl. by rewrite lookup_empty. }
  split.
  - apply map_empty. intros k. apply Hk.
  - apply map_eq. intros k. apply Hk.
Qed.

End vars_invariant.

(** ** Config.Vars: convergence *)

Section vars_convergence.
Context `{Templating}.
Import Config Config.Vars.

Variable vars0 : gmap string value.
Variable final : ctx.
Variable lvl : string → nat.
Variable N : nat.

Hypothesis final_dom : dom final = dom vars0.
Hypothesis lvl_bound : ∀ k, is_Some (vars0 !! k) → (lvl k < N)%nat.
Hypothesis final_plain :
  ∀ k v, vars0 !! k = Some v → is_templated v = false → final !! k = Some v.
Hypothesis final_ready :
  ∀ k v c, vars0 !! k = Some v → is_templated v = true → c ⊆ final →
    (∀ k', is_Some (vars0 !! k') → (lvl k' < lvl k)%nat → is_Some (c !! k')) →
    ∃ r, interpolate v c = Ok r.
Hypothesis final_sound :
  ∀ k v c r, vars0 !! k = Some v → is_templated v = true → c ⊆ final →
    interpolate v c = Ok r → final !! k = Some r.

Lemma try_key_within s k :
  (∀ k' v, vars s !! k' = Some v → vars0 !! k' = Some v) ∧ self s ⊆ final →
  (∀ k' v, vars (try_key s k) !! k' = Some v → vars0 !! k' = Some v)
  ∧ self (try_key s k) ⊆ final.
Proof.
  intros [Hvars Hsub]. unfold try_key.
  destruct (vars s !! k) as [v|] eqn:Hv; [|by auto].
  destruct (errors s !! k); [|by auto].
  destruct (is_templated v) eqn:Ht; [destruct (interpolate v (self s)) as [r|e] eqn:Hi|];
    simpl; [|by auto|].
  - split.
    + intros k' v' [_ Hv']%lookup_delete_Some. eauto.
    + apply insert_subseteq_l; [|done]. eauto.
  - split.
    + intros k' v' [_ Hv']%lookup_delete_Some. eauto.
    + apply insert_subseteq_l; [|done]. eauto.
Qed.

Lemma passes_within n : self (passes n vars0) ⊆ final.
Proof.
  unfold passes.
  apply (iter_pass_ind
           (λ s, (∀ k v, vars s !! k = Some v → vars0 !! k = Some v) ∧ self s ⊆ final)).
  - intros s k. apply try_key_within.
  - split; [done|]. simpl. apply map_empty_subseteq.
Qed.

(** The pass after the first [n + 1] resolves the keys of level [n]. *)
Lemma passes_progress n k :
  is_Some (vars0 !! k) → (lvl k < n)%nat → is_Some (self (passes (S n) vars0) !! k).
Proof.
  revert k. induction n as [|n IH]; intros k Hk Hlvl; [lia|].
  set (s := passes (S n) vars0) in *.
  change (passes (S (S n)) vars0) with (pass s).
  pose proof (invariant_passes vars0 (S n)) as Hinv. fold s in Hinv.
  assert (complete s) as Hcomplete by apply complete_pass.
  destruct (pass_spec s) as (Hmono & Hatt & Hframe).
  destruct (self s !! k) as [x|] eqn:Hs.
  { exists x. by eapply lookup_weaken. }
  destruct (inv_cover _ _ Hinv k Hk) as [Hv|[? ?]]; [|congruence].
  assert (k ∈ unexpanded_keys s) as Hu by (by apply elem_of_unexpanded_keys).
  destruct (Hatt k Hu) as (v & Hv' & Hcase).
  destruct (Hcomplete k Hv Hs) as [ie Hie]. rewrite Hie in Hcase.
  destruct Hcase as [(c & r & _ & _ & Hr & _)|(c & e & [Hc1 Hc2] & Ht & Hi & _)]; [eauto|].
  destruct (final_ready k v c) as [r Hr]; [by eapply inv_vars|done| | |congruence].
  - etrans; [done|]. apply (passes_within (S (S n))).
  - intros k' Hk' Hlt. eapply lookup_weaken_is_Some; [|done].
    apply IH; [done|lia].
Qed.

Lemma passes_resolved : self (passes (S N) vars0) = final.
Proof.
  apply map_eq. intros k. pose proof (passes_within (S N)) as Hsub.
  destruct (final !! k) as [x|] eqn:Hx.
  - assert (is_Some (vars0 !! k)) as Hk.
    { apply elem_of_dom. rewrite <-final_dom. apply elem_of_dom. eauto. }
    destruct (passes_progress N k Hk (lvl_bound k Hk)) as [y Hy].
    rewrite Hy. f_equal. pose proof (lookup_weaken _ _ _ _ Hy Hsub). congruence.
  - destruct (self (passes (S N) vars0) !! k) as [y|] eqn:Hy; [|done].
    pose proof (lookup_weaken _ _ _ _ Hy Hsub). congruence.
Qed.

Lemma passes_nothing_left : unexpanded_keys (passes (S N) vars0) = [].
Proof.
  destruct (unexpanded_keys (passes (S N) vars0)) as [|k l] eqn:Hu; [done|].
  assert (k ∈ unexpanded_keys (passes (S N) vars0)) as Hk by (rewrite Hu; left).
  apply elem_of_unexpanded_keys in Hk as [[v Hv] Hs].
  pose proof (inv_vars _ _ (invariant_passes vars0 (S N)) k v Hv) as Hv0.
  destruct (passes_progress N k) as [y Hy]; [eauto|apply lvl_bound; eauto|congruence].
Qed.

Lemma init_resolves :
  (N ≤ MAX_INTERPOLATION_DEPTH)%nat → init vars0 = Resolved final.
Proof.
  intros HN. unfold init, expand. fold (start vars0).
  assert (Nat.iter (S MAX_INTERPOLATION_DEPTH) pass (start vars0) = passes (S N) vars0)
    as Hlast.
  { apply iter_pass_fixed_le; [lia|]. apply passes_nothing_left. }
  destruct (expand_loop_state (S MAX_INTERPOLATION_DEPTH) (start vars0))
    as [[-> _]| ->]; rewrite Hlast.
  - by rewrite passes_resolved.
  - rewrite (errors_empty vars0), passes_resolved;
      [done|apply invariant_passes|apply passes_nothing_left].
Qed.

(** C1, as amended. Raw variables that resolve to [final] by dependency
    levels below [N], with [N] at most [MAX_INTERPOLATION_DEPTH]: every
    templated variable renders, against any part of [final] that holds all
    the variables of lower levels, and whenever it renders against a part of
    [final] the result is its value in [final]; the other variables are in
    [final] unchanged. Then [Vars] resolves to [final], and the loop of
    [expand] has reached this fixed point after [N + 1] passes: [self] is
    [final] and no key is left unexpanded. *)
Theorem vars_expand_converges :
  (N ≤ MAX_INTERPOLATION_DEPTH)%nat →
  init vars0 = Resolved final
  ∧ self (passes (S N) vars0) = final
  ∧ unexpanded_keys (passes (S N) vars0) = [].
Proof.
  intros HN. split_and!.
  - by apply init_resolves.
  - apply passes_resolved.
  - apply passes_nothing_left.
Qed.

End vars_convergence.

(** ** Config.Vars: cyclic references *)

Section vars_cycle.
Context `{Templating}.
Import Config Config.Vars.

Variable vars0 : gmap string value.
Variable cycle : gset string.

Hypothesis cycle_stuck :
  ∀ k, k ∈ cycle →
    ∃ v, vars0 !! k = Some v ∧ is_templated v = true
      ∧ ∀ c : ctx, dom c ## cycle → ∃ e, interpolate v c = Raise e.

Lemma try_key_avoids s k :
  (∀ k' v, vars s !! k' = Some v → vars0 !! k' = Some v) ∧ dom (self s) ## cycle →
  (∀ k' v, vars (try_key s k) !! k' = Some v → vars0 !! k' = Some v)
  ∧ dom (self (try_key s k)) ## cycle.
Proof.
  intros [Hvars Hdisj]. unfold try_key.
  destruct (vars s !! k) as [v|] eqn:Hv; [|by auto].
  destruct (errors s !! k); [|by auto].
  assert (k ∈ cycle → is_templated v = true ∧ ∃ e, interpolate v (self s) = Raise e)
    as Hstuck.
  { intros Hk. destruct (cycle_stuck k Hk) as (v' & Hv' & Ht & Hc).
    rewrite (Hvars k v Hv) in Hv'. injection Hv' as <-. auto. }
  destruct (is_templated v) eqn:Ht; [destruct (interpolate v (self s)) as [r|e] eqn:Hi|];
    simpl; [|by auto|].
  - split.
    + intros k' v' [_ Hv']%lookup_delete_Some. eauto.
    + rewrite dom_insert_L. apply disjoint_union_l. split; [|done].
      apply disjoint_singleton_l. intros Hk.
      destruct (Hstuck Hk) as (_ & e & ?). congruence.
  - split.
    + intros k' v' [_ Hv']%lookup_delete_Some. eauto.
    + rewrite dom_insert_L. apply disjoint_union_l. split; [|done].
      apply disjoint_singleton_l. intros Hk.
      destruct (Hstuck Hk) as (? & _). congruence.
Qed.

Lemma passes_avoid n : dom (self (passes n vars0)) ## cycle.
Proof.
  unfold passes.
  apply (iter_pass_ind
           (λ s, (∀ k v, vars s !! k = Some v → vars0 !! k = Some v)
                 ∧ dom (self s) ## cycle)).
  - intros s k. apply try_key_avoids.
  - split; [done|]. simpl. rewrite dom_empty_L. apply disjoint_empty_l.
Qed.

Lemma cycle_unexpanded n k : k ∈ cycle → k ∈ unexpanded_keys (passes n vars0).
Proof.
  intros Hk. apply elem_of_unexpanded_keys.
  assert (self (passes n vars0) !! k = None) as Hs.
  { apply not_elem_of_dom. intros Hs. by apply (passes_avoid n k). }
  split; [|done].
  destruct (cycle_stuck k Hk) as (v & Hv & _).
  destruct (inv_cover _ _ (invariant_passes vars0 n) k) as [?|[? ?]]; [eauto|done|congruence].
Qed.

(** C2. Raw variables with a non-empty set [cycle] of templated keys, each
    of which fails to render against every context that holds no key of
    [cycle]: the loop of [expand] runs all its [MAX_INTERPOLATION_DEPTH + 1]
    passes and returns its errors, [Vars] fails with them, the errors are
    recorded for exactly the keys that never resolved, those of [cycle] among
    them, and each one holds its key, the raw value, and the error of
    rendering that value in the last pass. *)
Theorem vars_cycle_rejected :
  cycle ≠ ∅ →
  let s := passes (S MAX_INTERPOLATION_DEPTH) vars0 in
  expand ∅ vars0 = (s, Some (errors s))
  ∧ init vars0 = Failed (errors s)
  ∧ (∀ k, is_Some (errors s !! k) ↔ is_Some (vars0 !! k) ∧ self s !! k = None)
  ∧ (∀ k, k ∈ cycle → is_Some (errors s !! k))
  ∧ (∀ k ie, errors s !! k = Some ie →
       ie = mkInterpolationError k (value_ ie) (error ie)
       ∧ vars0 !! k = Some (value_ ie)
       ∧ ∃ c, self (passes MAX_INTERPOLATION_DEPTH vars0) ⊆ c ∧ c ⊆ self s
           ∧ interpolate (value_ ie) c = Raise (error ie)).
Proof.
  intros Hne s.
  pose proof (invariant_passes vars0 (S MAX_INTERPOLATION_DEPTH)) as Hinv. fold s in Hinv.
  assert (complete s) as Hcomplete by apply complete_pass.
  assert (∀ k, k ∈ cycle → is_Some (errors s !! k)) as Hcycle.
  { intros k Hk.
    pose proof (cycle_unexpanded (S MAX_INTERPOLATION_DEPTH) k Hk) as Hu.
    apply elem_of_unexpanded_keys in Hu as [Hv Hs]. by apply Hcomplete. }
  assert (expand ∅ vars0 = (s, Some (errors s))) as Hexpand.
  { apply expand_loop_exhausted.
    apply set_choose_L in Hne as [k Hk].
    pose proof (cycle_unexpanded (S MAX_INTERPOLATION_DEPTH) k Hk) as Hu.
    unfold passes in Hu. intros Hnil. rewrite Hnil in Hu. by apply elem_of_nil in Hu. }
  split_and!; [done| | |done|].
  - unfold init. rewrite Hexpand. case_decide as Hsize; [|done].
    apply map_size_empty_iff in Hsize.
    apply set_choose_L in Hne as [k Hk]. destruct (Hcycle k Hk) as [ie Hie].
    rewrite Hsize, lookup_empty in Hie. done.
  - intros k. split.
    + intros [ie Hie]. destruct (inv_errors _ _ Hinv k ie Hie) as (_ & Hv & Hs).
      split; [|done]. exists (value_ ie). by apply (inv_vars _ _ Hinv).
    + intros [Hk Hs]. apply Hcomplete; [|done].
      destruct (inv_cover _ _ Hinv k Hk) as [?|[? ?]]; [done|congruence].
  - intros k ie Hie.
    apply (pass_errors vars0 (passes MAX_INTERPOLATION_DEPTH vars0)); [| |done].
    + apply invariant_passes.
    + apply complete_pass.
Qed.

End vars_cycle.

(** ** The fragment: rendering in a larger context *)

Section fragment_facts.
Import Config Config.Vars Fragment.

Lemma render_segments_mono (c c' : ctx) l out :
  c ⊆ c' → render_segments c l = Ok out → render_segments c' l = Ok out.
Proof.
  intros Hsub. revert out. induction l as [|[a|name] l IH]; intros out; simpl; [done| |].
  - destruct (render_segments c l) as [o|]; [|done]. by rewrite (IH o).
  - destruct (c !! name) as [v|] eqn:Hv; [|done].
    rewrite (lookup_weaken _ _ _ _ Hv Hsub).
    destruct (render_segments c l) as [o|]; [|done]. by rewrite (IH o).
Qed.

Lemma interpolate_mono (v : value) (c c' : ctx) r :
  c ⊆ c' → interpolate v c = Ok r → interpolate v c' = Ok r.
Proof.
  intros Hsub. unfold interpolate. simpl. unfold render.
  destruct (parse (py_str v) None) as [l|]; simpl; [|done].
  destruct (render_segments c l) as [out|] eqn:Hout; [|done].
  by rewrite (render_segments_mono c c' l out).
Qed.

(** A name the context lacks makes the rendering fail. *)
Lemma render_segments_undefined (c : ctx) l name :
  Var name ∈ l → c !! name = None → ∃ e, render_segments c l = Raise e.
Proof.
  intros Hin Hc. induction l as [|[a|name'] l IH]; simpl.
  - by apply elem_of_nil in Hin.
  - apply elem_of_cons in Hin as [?|Hin]; [done|].
    destruct (IH Hin) as [e ->]. eauto.
  - apply elem_of_cons in Hin as [[= <-]|Hin]; [rewrite Hc; eauto|].
    destruct (c !! name'); [|eauto]. destruct (IH Hin) as [e ->]. eauto.
Qed.

Lemma interpolate_undefined (v : value) (c : ctx) l name :
  parse (py_str v) None = Ok l → Var name ∈ l → c !! name = None →
  ∃ e, interpolate v c = Raise e.
Proof.
  intros Hl Hin Hc. unfold interpolate. simpl. unfold render. rewrite Hl. simpl.
  destruct (render_segments_undefined c l name Hin Hc) as [e ->]. eauto.
Qed.

End fragment_facts.

(** ** Config.Vars: the examples *)

Section vars_examples.
Import Config Config.Vars Fragment Examples.

Lemma chain_lookup k v :
  chain !! k = Some v →
  k = "a" ∧ v = VStr "1" ∨ k = "b" ∧ v = VStr "{{a}}2" ∨ k = "c" ∧ v = VStr "{{b}}3".
Proof.
  unfold chain. intros Hk.
  apply lookup_insert_Some in Hk as [[<- <-]|[_ Hk]]; [auto|].
  apply lookup_insert_Some in Hk as [[<- <-]|[_ Hk]]; [auto|].
  apply lookup_singleton_Some in Hk as [<- <-]. auto.
Qed.

Lemma chain_resolved_part (c : ctx) k x :
  c ⊆ chain_resolved → is_Some (c !! k) → chain_resolved !! k = Some x →
  {[ k := x ]} ⊆ c.
Proof.
  intros Hsub [y Hy] Hx. apply map_singleton_subseteq_l.
  pose proof (lookup_weaken _ _ _ _ Hy Hsub). congruence.
Qed.

Example chain_lvl_bound k : is_Some (chain !! k) → (chain_lvl k < 3)%nat.
Proof.
  intros [v Hv]. destruct (chain_lookup k v Hv) as [[-> _]|[[-> _]|[-> _]]];
    vm_compute; lia.
Qed.

Example chain_ready k v (c : ctx) :
  chain !! k = Some v → is_templated v = true → c ⊆ chain_resolved →
  (∀ k', is_Some (chain !! k') → (chain_lvl k' < chain_lvl k)%nat → is_Some (c !! k')) →
  ∃ r, interpolate v c = Ok r.
Proof.
  intros Hv _ Hsub Hlow.
  destruct (chain_lookup k v Hv) as [[-> ->]|[[-> ->]|[-> ->]]].
  - exists (VInt 1). apply (interpolate_mono _ ∅); [apply map_empty_subseteq|done].
  - exists (VInt 12). apply (interpolate_mono _ {[ "a" := VInt 1 ]}); [|done].
    apply chain_resolved_part; [done| |done].
    apply Hlow; [by eexists|vm_compute; lia].
  - exists (VInt 123). apply (interpolate_mono _ {[ "b" := VInt 12 ]}); [|done].
    apply chain_resolved_part; [done| |done].
    apply Hlow; [by eexists|vm_compute; lia].
Qed.

Example chain_sound k v (c : ctx) r :
  chain !! k = Some v → is_templated v = true → c ⊆ chain_resolved →
  interpolate v c = Ok r → chain_resolved !! k = Some r.
Proof.
  intros Hv _ Hsub Hr. apply (interpolate_mono _ _ chain_resolved) in Hr; [|done].
  destruct (chain_lookup k v Hv) as [[-> ->]|[[-> ->]|[-> ->]]];
    vm_compute in Hr; by injection Hr as <-.
Qed.

Example chain_plain k v :
  chain !! k = Some v → is_templated v = false → chain_resolved !! k = Some v.
Proof.
  intros Hv. by destruct (chain_lookup k v Hv) as [[-> ->]|[[-> ->]|[-> ->]]].
Qed.

(** The example of C1: the chain [a], [b], [c] has three levels and resolves
    to [{a: 1, b: 12, c: 123}]. *)
Lemma vars_expand_converges_witness :
  init chain = Resolved chain_resolved
  ∧ self (passes 4 chain) = chain_resolved
  ∧ unexpanded_keys (passes 4 chain) = [].
Proof.
  apply (vars_expand_converges chain chain_resolved chain_lvl 3).
  - reflexivity.
  - exact chain_lvl_bound.
  - exact chain_plain.
  - exact chain_ready.
  - exact chain_sound.
  - unfold MAX_INTERPOLATION_DEPTH. lia.
Defined.

(** C1 as stated fails. The texts ["12"] and ["123"] are parsed again as
    YAML, so [b] and [c] resolve to numbers, not to strings; and the chain of
    length one [{a: "1"}] is not resolved by one pass of the loop, whose
    first pass only records the [KeyError] of [del errors[key]], but by the
    second. *)
Lemma vars_expand_claim_fails :
  init chain ≠ Resolved chain_as_text
  ∧ unexpanded_keys (passes 1 single) = ["a"]
  ∧ self (passes 1 single) !! "a" = None
  ∧ errors (passes 1 single) !! "a"
    = Some (mkInterpolationError "a" (VStr "1") (KeyError "a"))
  ∧ self (passes 2 single) !! "a" = Some (VInt 1).
Proof.
  split_and!; [|by vm_compute..].
  intros Heq.
  assert (init chain = Resolved chain_resolved) as Hinit by (by vm_compute).
  rewrite Hinit in Heq.
  assert (chain_resolved !! "b" = chain_as_text !! "b") as Hb by congruence.
  vm_compute in Hb. discriminate.
Qed.

Lemma loop_stuck k :
  k ∈ ({[ "a"; "b" ]} : gset string) →
  ∃ v, loop !! k = Some v ∧ is_templated v = true
    ∧ ∀ c : ctx, dom c ## ({[ "a"; "b" ]} : gset string) → ∃ e, interpolate v c = Raise e.
Proof.
  intros [->%elem_of_singleton| ->%elem_of_singleton]%elem_of_union.
  - exists (VStr "{{b}}"). split_and!; [done..|]. intros c Hc.
    apply (interpolate_undefined _ c [Var "b"] "b"); [done|by left|].
    apply not_elem_of_dom. intros Hb. apply (Hc "b" Hb). set_solver.
  - exists (VStr "{{a}}"). split_and!; [done..|]. intros c Hc.
    apply (interpolate_undefined _ c [Var "a"] "a"); [done|by left|].
    apply not_elem_of_dom. intros Ha. apply (Hc "a" Ha). set_solver.
Qed.

(** The example of C2: [{a: "{{b}}", b: "{{a}}"}] fails after the eleven
    passes, with an error for [a] and one for [b]. *)
Lemma vars_cycle_rejected_witness :
  let s := passes (S MAX_INTERPOLATION_DEPTH) loop in
  expand ∅ loop = (s, Some (errors s))
  ∧ init loop = Failed (errors s)
  ∧ (∀ k, is_Some (errors s !! k) ↔ is_Some (loop !! k) ∧ self s !! k = None)
  ∧ (∀ k, k ∈ ({[ "a"; "b" ]} : gset string) → is_Some (errors s !! k))
  ∧ (∀ k ie, errors s !! k = Some ie →
       ie = mkInterpolationError k (value_ ie) (error ie)
       ∧ loop !! k = Some (value_ ie)
       ∧ ∃ c, self (passes MAX_INTERPOLATION_DEPTH loop) ⊆ c ∧ c ⊆ self s
           ∧ interpolate (value_ ie) c = Raise (error ie)).
Proof.
  apply (vars_cycle_rejected loop {[ "a"; "b" ]}).
  - exact loop_stuck.
  - intros Hempty. apply (not_elem_of_empty (C := gset string) "a").
    rewrite <-Hempty. apply elem_of_union_l. by apply elem_of_singleton.
Defined.

Example loop_errors :
  init loop
  = Failed {[ "a" := mkInterpolationError "a" (VStr "{{b}}") (UndefinedError "'b' is undefined");
              "b" := mkInterpolationError "b" (VStr "{{a}}") (UndefinedError "'a' is undefined") ]}.
Proof. by vm_compute. Qed.

Example chain_resolves : init chain = Resolved chain_resolved.
Proof. by vm_compute. Qed.

End vars_examples.

(** ** Config.StackRefs: the registry invariant *)

Section stack_refs_invariant.
Context `{Templating} `{Config.StackRefs.Deployment}.
Import Config Config.StackRefs.

Implicit Types (h : OptionalStackReference.t) (sr : t).

Lemma describe_stack_ok h :
  handle_ok h →
  fst (OptionalStackReference.describe_stack h) = deployed (OptionalStackReference.name h)
  ∧ handle_ok (snd (OptionalStackReference.describe_stack h))
  ∧ OptionalStackReference.name (snd (OptionalStackReference.describe_stack h))
    = OptionalStackReference.name h
  ∧ OptionalStackReference.optional (snd (OptionalStackReference.describe_stack h))
    = OptionalStackReference.optional h.
Proof.
  unfold handle_ok, OptionalStackReference.describe_stack.
  destruct h as [n o [r|] calls]; simpl.
  - intros [-> ->]. done.
  - intros ->. done.
Qed.

Lemma handle_exists_ok h :
  handle_ok h →
  fst (OptionalStackReference.exists_ h)
  = match deployed (OptionalStackReference.name h) with
    | Some _ => true
    | None => false
    end
  ∧ handle_ok (snd (OptionalStackReference.exists_ h))
  ∧ OptionalStackReference.name (snd (OptionalStackReference.exists_ h))
    = OptionalStackReference.name h
  ∧ OptionalStackReference.optional (snd (OptionalStackReference.exists_ h))
    = OptionalStackReference.optional h.
Proof.
  intros Hok. destruct (describe_stack_ok h Hok) as (Hr & Hok' & Hn & Ho).
  unfold OptionalStackReference.exists_.
  destruct (OptionalStackReference.describe_stack h) as [r h']. simpl in *.
  by rewrite Hr.
Qed.

Lemma handle_output_ok h output_name :
  handle_ok h → handle_ok (snd (OptionalStackReference.output h output_name)).
Proof.
  intros Hok. destruct (describe_stack_ok h Hok) as (Hr & Hok' & Hn & Ho).
  unfold OptionalStackReference.output.
  destruct (OptionalStackReference.describe_stack h) as [r h']. simpl in *.
  by destruct (default ∅ r !! output_name).
Qed.

Lemma handle_init_ok n o : handle_ok (OptionalStackReference.init n o).
Proof. done. Qed.

(** The handles the building loop adds are fresh, under declared names other
    than [environment]. *)
Lemma stacks_loop_ok (P : string → Prop) environment items reg :
  (∀ name, name ∈ map fst items → P name) →
  (∀ name h, reg !! name = Some h → handle_ok h ∧ P name ∧ name ≠ "environment") →
  ∀ name h, snd (stacks_loop environment items reg) !! name = Some h →
    handle_ok h ∧ P name ∧ name ≠ "environment".
Proof.
  revert reg. induction items as [|[n cfg] items IH]; intros reg Hitems Hreg; simpl;
    [exact Hreg|].
  assert (∀ name, name ∈ map fst items → P name) as Hitems'.
  { intros name Hname. apply Hitems. simpl. by right. }
  destruct (String.eqb n "environment") eqn:Henv; [by apply IH|].
  apply String.eqb_neq in Henv.
  destruct (if truthy cfg then cfg else VDict []) as [| | | | |d]; try by apply Hreg.
  destruct (InterpolatedDict.init _ _) as [final_opts|]; [|by apply Hreg].
  destruct (StackRefOpts.init final_opts) as [opts|]; [|by apply Hreg].
  apply IH; [done|]. intros name h [[<- <-]|[_ Hh]]%lookup_insert_Some; [|by apply Hreg].
  split_and!; [apply handle_init_ok| |done]. apply Hitems. simpl. by left.
Qed.

Lemma stacks_ok refs0 environment0 sr :
  registry_ok refs0 environment0 sr →
  registry_ok refs0 environment0 (snd (stacks sr))
  ∧ is_Some (_stacks (snd (stacks sr)))
  ∧ ∀ reg, fst (stacks sr) = Return reg → _stacks (snd (stacks sr)) = Some reg.
Proof.
  intros Hok0. pose proof Hok0 as (Hrefs & Henv & Hreg). unfold stacks.
  destruct (_stacks sr) as [reg|] eqn:Hstacks.
  - simpl. rewrite Hstacks. split_and!; [done|by eexists|]. by intros ? [= ->].
  - destruct (stacks_loop (environment sr) (refs sr) ∅) as [r reg] eqn:Hloop.
    assert (registry_ok refs0 environment0
              (mk (environment sr) (refs sr) (Some reg) (S (builds sr)))) as Hok.
    { split_and!; [done..|]. simpl. rewrite Hreg. split; [done|].
      pose proof (stacks_loop_ok (λ name, name ∈ map fst refs0) (environment sr)
                    (refs sr) ∅) as Hl.
      rewrite Hloop in Hl. apply Hl; [by rewrite Hrefs|].
      intros ?? Hempty. by rewrite lookup_empty in Hempty. }
    destruct r; simpl; (split_and!; [done|by eexists|]); [by intros ? [= ->]|done..].
Qed.

Lemma stack_state sr name : snd (stack sr name) = snd (stacks sr).
Proof.
  unfold stack. destruct (stacks sr) as [[reg| |] sr']; [|done..].
  by destruct (reg !! name).
Qed.

Lemma stack_Return sr name h sr' :
  stack sr name = (Return h, sr') →
  ∃ reg, stacks sr = (Return reg, sr') ∧ reg !! name = Some h.
Proof.
  unfold stack. destruct (stacks sr) as [[reg| |] sr1]; [|done..].
  destruct (reg !! name) as [h'|] eqn:Hh; [|done]. intros [= <- <-]. eauto.
Qed.

Lemma store_ok refs0 environment0 sr name h h0 reg :
  registry_ok refs0 environment0 sr →
  _stacks sr = Some reg → reg !! name = Some h0 → handle_ok h →
  registry_ok refs0 environment0 (store sr name h).
Proof.
  intros (Hrefs & Henv & Hreg) Hstacks Hname Hok.
  rewrite Hstacks in Hreg. destruct Hreg as [Hbuilds Hreg].
  unfold store. rewrite Hstacks. split_and!; [done..|]. simpl. split; [done|].
  intros name' h' [[<- <-]|[_ Hh']]%lookup_insert_Some; [|by apply Hreg].
  destruct (Hreg name h0 Hname) as (_ & ? & ?). done.
Qed.

Lemma step_ok refs0 environment0 sr o :
  registry_ok refs0 environment0 sr → registry_ok refs0 environment0 (step sr o).
Proof.
  intros Hok. destruct (stacks_ok refs0 environment0 sr Hok) as (Hok' & _ & Hret).
  destruct o as [name|name|name|name output_name]; simpl.
  - unfold contains. by destruct (stacks sr) as [[reg| |] sr'].
  - by rewrite stack_state.
  - unfold exists_. destruct (stack sr name) as [[h| |] sr'] eqn:Hstack;
      [|by rewrite <-(stack_state sr name), Hstack in Hok'..].
    destruct (stack_Return _ _ _ _ Hstack) as (reg & Hstacks & Hh).
    rewrite Hstacks in Hok', Hret. simpl in *.
    pose proof (Hret reg eq_refl) as Hreg.
    assert (handle_ok h) as Hhok.
    { destruct Hok' as (_ & _ & Hr). rewrite Hreg in Hr. by apply Hr in Hh as (? & _). }
    destruct (handle_exists_ok h Hhok) as (_ & Hhok' & _).
    destruct (OptionalStackReference.exists_ h) as [b h']. simpl in *.
    by eapply store_ok.
  - unfold output. destruct (stack sr name) as [[h| |] sr'] eqn:Hstack;
      [|by rewrite <-(stack_state sr name), Hstack in Hok'..].
    destruct (stack_Return _ _ _ _ Hstack) as (reg & Hstacks & Hh).
    rewrite Hstacks in Hok', Hret. simpl in *.
    pose proof (Hret reg eq_refl) as Hreg.
    assert (handle_ok h) as Hhok.
    { destruct Hok' as (_ & _ & Hr). rewrite Hreg in Hr. by apply Hr in Hh as (? & _). }
    destruct (handle_exists_ok h Hhok) as (_ & Hhok' & _).
    destruct (OptionalStackReference.exists_ h) as [b h']. simpl in *.
    destruct (negb b).
    + destruct (truthy (OptionalStackReference.optional h')); simpl; by eapply store_ok.
    + pose proof (handle_output_ok h' output_name Hhok') as Hhok''.
      destruct (OptionalStackReference.output h' output_name) as [r h'']. simpl in *.
      by eapply store_ok.
Qed.

Lemma init_ok refs0 environment0 :
  registry_ok refs0 environment0 (init refs0 environment0).
Proof. done. Qed.

Lemma run_ok refs0 environment0 ops :
  registry_ok refs0 environment0 (run (init refs0 environment0) ops).
Proof.
  unfold run. generalize (init_ok refs0 environment0).
  generalize (init refs0 environment0) as sr.
  induction ops as [|o ops IH]; intros sr Hok; simpl; [done|].
  apply IH. by apply step_ok.
Qed.

End stack_refs_invariant.

(** ** Config.StackRefs: the claims *)

Section stack_refs_claims.
Context `{Templating} `{Config.StackRefs.Deployment}.
Import Config Config.StackRefs.

Implicit Types (h : OptionalStackReference.t) (sr : t).

Lemma handle_exists_fields h :
  OptionalStackReference.name (snd (OptionalStackReference.exists_ h))
  = OptionalStackReference.name h
  ∧ OptionalStackReference.optional (snd (OptionalStackReference.exists_ h))
    = OptionalStackReference.optional h.
Proof.
  unfold OptionalStackReference.exists_, OptionalStackReference.describe_stack.
  by destruct h as [n o [r|] calls].
Qed.

Lemma output_when_absent sr name output_name h sr' :
  stack sr name = (Return h, sr') →
  fst (OptionalStackReference.exists_ h) = false →
  fst (output sr name output_name)
  = if truthy (OptionalStackReference.optional h) then Return VNone
    else Raised (PyException
                   ("Stack config.refs[" ++ name ++ "] ("
                    ++ py_str (OptionalStackReference.name h)
                    ++ ") does not exist, but is required")).
Proof.
  intros Hstack Hexists. unfold output. rewrite Hstack.
  destruct (handle_exists_fields h) as [Hn Ho].
  destruct (OptionalStackReference.exists_ h) as [b h']. simpl in *. subst b. simpl.
  rewrite Ho, Hn. by destruct (truthy (OptionalStackReference.optional h)).
Qed.

(** C5. After any operations on a registry, when [stack(name)] yields the
    handle of a reference and no stack is deployed under the target
    [stack.name] of the handle, [output(name, output_name)] returns [None]
    if the handle is optional, and otherwise raises the error that names the
    reference and the resolved target and says that it does not exist. *)
Theorem stack_output_missing refs0 environment0 ops name output_name h sr' :
  stack (run (init refs0 environment0) ops) name = (Return h, sr') →
  deployed (OptionalStackReference.name h) = None →
  fst (output (run (init refs0 environment0) ops) name output_name)
  = if truthy (OptionalStackReference.optional h) then Return VNone
    else Raised (PyException
                   ("Stack config.refs[" ++ name ++ "] ("
                    ++ py_str (OptionalStackReference.name h)
                    ++ ") does not exist, but is required")).
Proof.
  intros Hstack Habsent. eapply output_when_absent; [done|].
  pose proof (run_ok refs0 environment0 ops) as Hok.
  destruct (stack_Return _ _ _ _ Hstack) as (reg & Hstacks & Hh).
  destruct (stacks_ok refs0 environment0 _ Hok) as ((_ & _ & Hreg) & _ & Hsome).
  rewrite Hstacks in Hreg, Hsome. simpl in *. rewrite (Hsome reg eq_refl) in Hreg.
  destruct Hreg as [_ Hreg]. destruct (Hreg name h Hh) as (Hhok & _).
  destruct (handle_exists_ok h Hhok) as (-> & _). by rewrite Habsent.
Qed.

Lemma sorted_Sorted l : Sorted String.le (sorted l) ∧ sorted l ≡ₚ l.
Proof.
  split; [apply (Sorted_merge_sort String.le)|apply merge_sort_Permutation].
Qed.

Lemma stack_undefined_message refs0 environment0 sr name reg :
  registry_ok refs0 environment0 sr →
  fst (stacks sr) = Return reg → reg !! name = None →
  fst (stack sr name)
  = Raised (PyException
              ("Attempt to access stack " ++ name
               ++ ", but it's not defined in config.refs - only "
               ++ join ", " (sorted (map fst refs0)) ++ " are defined")).
Proof.
  intros Hok Hret Hname.
  destruct (stacks_ok refs0 environment0 sr Hok) as ((Hrefs & _) & _).
  unfold stack. destruct (stacks sr) as [r sr1]. simpl in *. subst r.
  by rewrite Hname, Hrefs.
Qed.

Lemma stacks_keys refs0 environment0 sr reg name :
  registry_ok refs0 environment0 sr →
  fst (stacks sr) = Return reg → is_Some (reg !! name) →
  name ∈ map fst refs0 ∧ name ≠ "environment".
Proof.
  intros Hok Hret [h Hh].
  destruct (stacks_ok refs0 environment0 sr Hok) as ((_ & _ & Hreg) & _ & Hsome).
  rewrite (Hsome reg Hret) in Hreg. destruct Hreg as [_ Hreg].
  by destruct (Hreg name h Hh) as (_ & ? & ?).
Qed.

(** C6. After any operations on a registry whose handles [stacks()] returns,
    [stack(name)] for a name that is not declared raises the error whose
    text lists the declared names, sorted and joined by a comma and a space:
    the list is in order and is a rearrangement of the declared names. *)
Theorem stack_not_defined refs0 environment0 ops name reg :
  name ∉ map fst refs0 →
  fst (stacks (run (init refs0 environment0) ops)) = Return reg →
  fst (stack (run (init refs0 environment0) ops) name)
  = Raised (PyException
              ("Attempt to access stack " ++ name
               ++ ", but it's not defined in config.refs - only "
               ++ join ", " (sorted (map fst refs0)) ++ " are defined"))
  ∧ Sorted String.le (sorted (map fst refs0))
  ∧ sorted (map fst refs0) ≡ₚ map fst refs0.
Proof.
  intros Hname Hret. pose proof (run_ok refs0 environment0 ops) as Hok.
  split; [|apply sorted_Sorted].
  eapply stack_undefined_message; [done..|].
  destruct (reg !! name) eqn:Hh; [|done].
  destruct (stacks_keys refs0 environment0 _ reg name Hok Hret); [by eexists|done].
Qed.

(** C10. For references that declare the name [environment], after any
    operations the registry holds no handle under that name; and when
    [stacks()] returns, [stack("environment")] raises the error that the
    name is not defined in config.refs, in whose list of declared names
    [environment] appears. *)
Theorem environment_reference_skipped refs0 environment0 ops :
  "environment" ∈ map fst refs0 →
  (∀ reg, _stacks (run (init refs0 environment0) ops) = Some reg →
     reg !! "environment" = None)
  ∧ (∀ reg, fst (stacks (run (init refs0 environment0) ops)) = Return reg →
       reg !! "environment" = None
       ∧ fst (stack (run (init refs0 environment0) ops) "environment")
         = Raised (PyException
                     ("Attempt to access stack environment"
                      ++ ", but it's not defined in config.refs - only "
                      ++ join ", " (sorted (map fst refs0)) ++ " are defined")))
  ∧ "environment" ∈ sorted (map fst refs0).
Proof.
  intros Hdecl. pose proof (run_ok refs0 environment0 ops) as Hok.
  split_and!.
  - intros reg Hreg. destruct Hok as (_ & _ & Hr). rewrite Hreg in Hr.
    destruct Hr as [_ Hr]. destruct (reg !! "environment") as [h|] eqn:Hh; [|done].
    by destruct (Hr _ _ Hh) as (_ & _ & ?).
  - intros reg Hret.
    assert (reg !! "environment" = None) as Hnone.
    { destruct (reg !! "environment") eqn:Hh; [|done].
      destruct (stacks_keys refs0 environment0 _ reg "environment" Hok Hret);
        [by eexists|done]. }
    split; [done|]. by eapply (stack_undefined_message refs0 environment0).
  - by rewrite (proj2 (sorted_Sorted _)).
Qed.

(** C8. A registry starts without handles and without a build. After any
    sequence of operations on it, the building loop of [stacks()] has run at
    most once, and every handle of the registry has called the provider at
    most once: not at all while it has no cached result, once when it has
    one, which is then the answer of the provider for its target. *)
Theorem stack_refs_memoized refs0 environment0 ops :
  _stacks (init refs0 environment0) = None
  ∧ builds (init refs0 environment0) = 0%nat
  ∧ (builds (run (init refs0 environment0) ops) ≤ 1)%nat
  ∧ ∀ reg name h,
      _stacks (run (init refs0 environment0) ops) = Some reg →
      reg !! name = Some h →
      (OptionalStackReference.provider_calls h ≤ 1)%nat
      ∧ (OptionalStackReference.provider_calls h = 1%nat
         ↔ is_Some (OptionalStackReference._describe_stack_result h))
      ∧ ∀ r, OptionalStackReference._describe_stack_result h = Some r →
          r = deployed (OptionalStackReference.name h).
Proof.
  pose proof (run_ok refs0 environment0 ops) as (_ & _ & Hr).
  split_and!; [done..| |].
  - destruct (_stacks (run (init refs0 environment0) ops)); [destruct Hr|]; lia.
  - intros reg name h Hreg Hh. rewrite Hreg in Hr. destruct Hr as [_ Hr].
    destruct (Hr name h Hh) as (Hok & _). unfold handle_ok in Hok.
    destruct (OptionalStackReference._describe_stack_result h) as [r|].
    + destruct Hok as [-> ->]. split_and!; [lia| |by intros ? [= <-]].
      split; [by eexists|done].
    + rewrite Hok. split_and!; [lia| |done]. split; [done|]. by intros [? ?].
Qed.

End stack_refs_claims.

(** ** Config.StackRefs: the examples *)

Section stack_refs_examples.
Import Config Config.StackRefs Fragment Examples.

(** The examples of C5: with nothing deployed, the required reference [foo]
    fails naming [dev-foo], and the optional one yields [None]. *)
Lemma stack_output_missing_witness :
  fst (output (init required_refs "dev") "foo" "bar")
  = Raised (PyException "Stack config.refs[foo] (dev-foo) does not exist, but is required")
  ∧ fst (output (init optional_refs "dev") "foo" "imaginary_output") = Return VNone.
Proof.
  split.
  - apply (stack_output_missing required_refs "dev" [] "foo" "bar"
             required_handle required_registry); by vm_compute.
  - apply (stack_output_missing optional_refs "dev" [] "foo" "imaginary_output"
             optional_handle optional_registry); by vm_compute.
Defined.

(** The example of C6: [stack("foo")] with [bar] and [baz] declared. *)
Lemma stack_not_defined_witness :
  fst (stack (init bar_baz "dev") "foo")
  = Raised (PyException
              "Attempt to access stack foo, but it's not defined in config.refs - only bar, baz are defined").
Proof.
  apply (stack_not_defined bar_baz "dev" [] "foo" bar_baz_handles).
  - intros Hin. by repeat (apply elem_of_cons in Hin as [?|Hin]; [done|]);
      apply elem_of_nil in Hin.
  - by vm_compute.
Defined.

(** The example of C10: [environment] is declared, gets no handle, and is
    listed by the error of [stack("environment")]. *)
Lemma environment_reference_skipped_witness :
  fst (stack (init with_environment "dev") "environment")
  = Raised (PyException
              "Attempt to access stack environment, but it's not defined in config.refs - only environment, foo are defined").
Proof.
  assert ("environment" ∈ map fst with_environment) as Hdecl by (right; left).
  destruct (environment_reference_skipped with_environment "dev" [] Hdecl)
    as (_ & Hstack & _).
  apply (Hstack {[ "foo" := required_handle ]}). by vm_compute.
Defined.

End stack_refs_examples.

(** ** Config.InterpolatedDict *)

Section interpolated_dict.
Context `{Templating}.
Import Config.

Lemma value_none_dec (v : value) : {v = VNone} + {v ≠ VNone}.
Proof. destruct v; (by left) || (by right). Qed.

(** [type(object) == dict] *)
Lemma init_not_dict (object : value) (vars : ctx) :
  truthy object = true → (∀ d, object ≠ VDict d) →
  InterpolatedDict.init object vars = Raise (PyException (py_str object)).
Proof.
  intros Ht Hd. unfold InterpolatedDict.init. rewrite Ht. simpl.
  destruct object; try done. by destruct (Hd d).
Qed.

(** C9. A falsy object gives the empty mapping, whatever its type; and for
    an object that is not a dictionary, the error that carries the object is
    raised exactly when the object is truthy. *)
Theorem interpolated_dict_falsy (object : value) (vars : ctx) :
  (truthy object = false → InterpolatedDict.init object vars = Ok ∅)
  ∧ ((∀ d, object ≠ VDict d) →
       (truthy object = true
        ↔ InterpolatedDict.init object vars = Raise (PyException (py_str object)))).
Proof.
  split.
  - intros Ht. unfold InterpolatedDict.init. by rewrite Ht.
  - intros Hd. split; [intros Ht; by apply init_not_dict|].
    unfold InterpolatedDict.init. by destruct (truthy object).
Qed.

(** [None], [{}], [[]], [""], [0] and [False]. *)
Example falsy_values_give_empty (vars : ctx) :
  Forall (λ object, InterpolatedDict.init object vars = Ok ∅)
    [VNone; VDict []; VList []; VStr ""; VInt 0; VBool false].
Proof. repeat constructor. Qed.

(** The loop over the items of a dictionary with distinct keys: a key with a
    null value is stored as null; a key whose value renders and parses to
    null is left as it was before the loop; a key whose value renders and
    parses to anything else is stored with that. *)
Lemma items_loop_spec items (vars self r : ctx) :
  NoDup (map fst items) →
  InterpolatedDict.items_loop items vars self = Ok r →
  (∀ k, k ∉ map fst items → r !! k = self !! k)
  ∧ ∀ k v, (k, v) ∈ items →
      (v = VNone → r !! k = Some VNone)
      ∧ (v ≠ VNone → interpolate v vars = Ok VNone → r !! k = self !! k)
      ∧ (v ≠ VNone → ∀ x, interpolate v vars = Ok x → x ≠ VNone → r !! k = Some x).
Proof.
  revert self. induction items as [|[k0 v0] items IH]; intros self Hnd Hr; simpl in *.
  { injection Hr as <-. split; [done|]. intros k v Hin. by apply elem_of_nil in Hin. }
  apply NoDup_cons in Hnd as [Hk0 Hnd].
  assert (∃ self',
    InterpolatedDict.items_loop items vars self' = Ok r
    ∧ (∀ k, k ≠ k0 → self' !! k = self !! k)
    ∧ (v0 = VNone → self' !! k0 = Some VNone)
    ∧ (v0 ≠ VNone → interpolate v0 vars = Ok VNone → self' !! k0 = self !! k0)
    ∧ (v0 ≠ VNone → ∀ x, interpolate v0 vars = Ok x → x ≠ VNone → self' !! k0 = Some x))
    as (self' & Hr' & Hother & Hnull & Homit & Hkeep).
  { destruct (value_none_dec v0) as [->|Hv0].
    - exists (<[k0 := VNone]> self). split_and!; [done| |by rewrite lookup_insert_eq|done..].
      intros k Hk. by rewrite lookup_insert_ne.
    - assert (InterpolatedDict.items_loop ((k0, v0) :: items) vars self
              = match interpolate v0 vars with
                | Ok VNone => InterpolatedDict.items_loop items vars self
                | Ok parsed_value =>
                    InterpolatedDict.items_loop items vars (<[k0 := parsed_value]> self)
                | Raise ex =>
                    Raise (PyException ("Unable to process " ++ k0 ++ ", value="
                                        ++ py_str v0 ++ " : " ++ exn_str ex))
                end) as Heq by (by destruct v0).
      simpl in Heq. rewrite Heq in Hr. clear Heq.
      destruct (interpolate v0 vars) as [x|e]; [|done].
      destruct (value_none_dec x) as [->|Hx].
      + exists self. split_and!; try done.
        intros _ x [= <-] Hx. done.
      + exists (<[k0 := x]> self). split_and!; try done.
        * by destruct x.
        * intros k Hk. by rewrite lookup_insert_ne.
        * intros _ [= ->]. done.
        * intros _ ? [= <-] _. by rewrite lookup_insert_eq. }
  destruct (IH self' Hnd Hr') as [Hframe Hitems].
  assert (r !! k0 = self' !! k0) as Hk0r by (by apply Hframe).
  split.
  - intros k [Hk Hin]%not_elem_of_cons. rewrite (Hframe k Hin). by apply Hother.
  - intros k v [[= -> ->]|Hin]%elem_of_cons.
    + rewrite Hk0r. split_and!; assumption.
    + assert (k ≠ k0) as Hne.
      { intros ->. apply Hk0. apply list_elem_of_fmap. by exists (k0, v). }
      rewrite <-(Hother k Hne). by apply Hitems.
Qed.

(** C4, as amended. In the result of [InterpolatedDict] for a dictionary
    with distinct keys: a key whose value is null itself is kept, mapped to
    null, and is not rendered; a key whose value is not null and renders to
    a text that parses to null, be it no text or an explicit null, is
    omitted; and a key whose value renders and parses to anything else is
    mapped to that. *)
Theorem interpolated_dict_null d (vars r : ctx) k v :
  NoDup (map fst d) →
  InterpolatedDict.init (VDict d) vars = Ok r →
  (k, v) ∈ d →
  (v = VNone → r !! k = Some VNone)
  ∧ (v ≠ VNone → interpolate v vars = Ok VNone → r !! k = None)
  ∧ (v ≠ VNone → ∀ x, interpolate v vars = Ok x → x ≠ VNone → r !! k = Some x).
Proof.
  intros Hnd Hr Hin. unfold InterpolatedDict.init in Hr.
  destruct d as [|kv d]; [by apply elem_of_nil in Hin|]. simpl in Hr.
  destruct (items_loop_spec (kv :: d) vars ∅ r Hnd Hr) as [_ Hitems].
  destruct (Hitems k v Hin) as (Hnull & Homit & Hkeep).
  split_and!; [done| |done]. intros Hv Hi. by rewrite (Homit Hv Hi).
Qed.

End interpolated_dict.

(** ** Config.InterpolatedDict: the examples *)

Section interpolated_dict_examples.
Import Config Fragment Examples.

Example nulls_interpolated : InterpolatedDict.init (VDict nulls) nulls_vars = Ok nulls_result.
Proof. by vm_compute. Qed.

(** The example of C4: the value ["null"] renders and parses to null, and
    its key is omitted. *)
Lemma interpolated_dict_null_witness :
  (VStr "null" = VNone → nulls_result !! "explicit" = Some VNone)
  ∧ (VStr "null" ≠ VNone → interpolate (VStr "null") nulls_vars = Ok VNone →
       nulls_result !! "explicit" = None)
  ∧ (VStr "null" ≠ VNone → ∀ x, interpolate (VStr "null") nulls_vars = Ok x →
       x ≠ VNone → nulls_result !! "explicit" = Some x).
Proof.
  apply (interpolated_dict_null nulls nulls_vars nulls_result "explicit" (VStr "null")).
  - compute_done.
  - by vm_compute.
  - right. left.
Defined.

(** C4 as stated fails: the text [null] is what the value ["null"] renders
    to, an explicit null, and the key is not kept mapped to null. *)
Lemma interpolated_dict_explicit_null_dropped :
  ¬ (∀ d (vars r : ctx) k v,
       InterpolatedDict.init (VDict d) vars = Ok r → (k, v) ∈ d →
       jinja_render (py_str v) vars = Ok "null" → r !! k = Some VNone).
Proof.
  intros Hclaim.
  specialize (Hclaim [("k", VStr "null")] ∅ ∅ "k" (VStr "null")).
  rewrite lookup_empty in Hclaim. discriminate Hclaim; [by vm_compute|left|by vm_compute].
Qed.

End interpolated_dict_examples.

(** ** template.py *)

Section template_claims.
Context `{TemplateEngine}.
Import Template.

(** C7. Once the provider has delivered the template text, [render] with
    [fail_on_error] false neither raises [TemplateRenderingException] nor
    lets an exception through; an error of rendering the text, or of parsing
    the rendered content, is returned as the failed template that holds the
    source (the content when there is some, else the raw template), the
    location [str(provider)] and the error; and with [fail_on_error] true
    the same failed template is raised inside [TemplateRenderingException]. *)
Theorem template_render_failure_policy (self : Template.t) (vars : ctx) raw_template :
  template (provider self) = TOk raw_template →
  (∀ t, render self vars false ≠ TemplateRenderingException t)
  ∧ (∀ ex, render self vars false ≠ Propagated ex)
  ∧ (∀ ex, template_render (helpers self) raw_template vars = TRaise ex →
       render self vars false
       = ReturnedFailed
           (FailedTemplate.mk raw_template (provider_str (provider self)) (Some ex))
       ∧ render self vars true
         = TemplateRenderingException
             (FailedTemplate.mk raw_template (provider_str (provider self)) (Some ex)))
  ∧ (∀ content ex,
       template_render (helpers self) raw_template vars = TOk content →
       RenderedTemplate.init content = TRaise ex →
       render self vars false
       = ReturnedFailed
           (FailedTemplate.mk (content_or (Some content) raw_template)
              (provider_str (provider self)) (Some ex))
       ∧ render self vars true
         = TemplateRenderingException
             (FailedTemplate.mk (content_or (Some content) raw_template)
                (provider_str (provider self)) (Some ex))).
Proof.
  intros Hraw. unfold render. rewrite Hraw. split_and!.
  - intros t. destruct (template_render _ _ _) as [content|ex]; [|done].
    by destruct (RenderedTemplate.init content).
  - intros ex0. destruct (template_render _ _ _) as [content|ex]; [|done].
    by destruct (RenderedTemplate.init content).
  - by intros ex ->.
  - by intros content ex -> ->.
Qed.

(** [source_context] never reads outside the lines: the index [i - 1] is
    within the list for every [i] of its range. *)
Lemma context_lines_in_range (lines : list string) (line_no i : Z) :
  i ∈ range (Z.max 1 (line_no - FailedTemplate.ERROR_CONTEXT_LINES))
        (Z.min (Z.of_nat (length lines)) (line_no + FailedTemplate.ERROR_CONTEXT_LINES) - 1) →
  is_Some (lines !! Z.to_nat (i - 1)).
Proof.
  unfold range. intros [Hlo Hhi]%elem_of_seqZ. apply lookup_lt_is_Some. lia.
Qed.

End template_claims.

Section template_examples.
Import Template Fragment Examples.

(** The example of C7: the template [{{ x }}] rendered without [x]. *)
Lemma template_render_failure_policy_witness :
  Template.render undefined_template ∅ false
  = ReturnedFailed
      (FailedTemplate.mk "{{ x }}" "tpl.yaml"
         (Some (mkRaised (UndefinedError "'x' is undefined")
                  [mkFrame "stk/template.py" 85; mkFrame "<template>" 1])))
  ∧ Template.render undefined_template ∅ true
    = TemplateRenderingException
        (FailedTemplate.mk "{{ x }}" "tpl.yaml"
           (Some (mkRaised (UndefinedError "'x' is undefined")
                    [mkFrame "stk/template.py" 85; mkFrame "<template>" 1]))).
Proof.
  destruct (template_render_failure_policy undefined_template ∅ "{{ x }}" eq_refl)
    as (_ & _ & Hrender & _).
  apply Hrender. by vm_compute.
Defined.

(** C3, what the code does. For a source of ten lines and an error at line
    6, [source_context] gives the lines 3 to 7, each after its number, and
    not line 8; [__str__] reports line 6 above them. For an error at line 10
    [source_context] gives the lines 7 and 8: the window stops two lines
    short of the last line and leaves the line of the error out. *)
Theorem source_context_window (l1 l2 l3 l4 l5 l6 l7 l8 l9 l10 : string) :
  FailedTemplate.context_lines [l1; l2; l3; l4; l5; l6; l7; l8; l9; l10] 6
  = ["   3 : " ++ l3; "   4 : " ++ l4; "   5 : " ++ l5; "   6 : " ++ l6;
     "   7 : " ++ l7]
  ∧ FailedTemplate.context_lines [l1; l2; l3; l4; l5; l6; l7; l8; l9; l10] 10
    = ["   7 : " ++ l7; "   8 : " ++ l8]
  ∧ FailedTemplate.str failed_at_6
    = Ok ("'x' is undefined" ++ nl ++ "tpl.yaml at line 6:" ++ nl ++ nl
          ++ "   3 : l3" ++ nl ++ "   4 : l4" ++ nl ++ "   5 : l5" ++ nl
          ++ "   6 : l6" ++ nl ++ "   7 : l7" ++ nl ++ nl).
Proof. split_and!; [reflexivity..|by vm_compute]. Qed.

(** Without a frame of the template in the traceback, [__str__] names the
    last frame instead. *)
Example failed_outside_str :
  FailedTemplate.str
    (FailedTemplate.mk ten_lines "tpl.yaml"
       (Some (mkRaised (PyException "connection refused")
                [mkFrame "stk/template.py" 85; mkFrame "helpers.py" 12])))
  = Ok ("Error occurred outsite of template" ++ nl ++ "connection refused" ++ nl
        ++ "helpers.py:12").
Proof. by vm_compute. Qed.

End template_examples.

(** * Further properties *)

(** ** Config.Vars: what a resolved context holds *)

Section vars_results.
Context `{Templating}.
Import Config Config.Vars.

Implicit Types (s : state) (k : string).

(** Every key of [self] was a raw key, holding the raw value itself when it
    is not templated and else what the raw value rendered to against a part
    of [self]; and a key still in [vars] is not in [self]. *)
Lemma try_key_sound (vars0 : gmap string value) s k :
  (∀ k' v, vars s !! k' = Some v → vars0 !! k' = Some v)
  ∧ (∀ k', is_Some (vars s !! k') → self s !! k' = None)
  ∧ (∀ k' x, self s !! k' = Some x →
       ∃ v, vars0 !! k' = Some v
         ∧ if is_templated v then ∃ c, c ⊆ self s ∧ interpolate v c = Ok x
           else x = v) →
  (∀ k' v, vars (try_key s k) !! k' = Some v → vars0 !! k' = Some v)
  ∧ (∀ k', is_Some (vars (try_key s k) !! k') → self (try_key s k) !! k' = None)
  ∧ (∀ k' x, self (try_key s k) !! k' = Some x →
       ∃ v, vars0 !! k' = Some v
         ∧ if is_templated v
           then ∃ c, c ⊆ self (try_key s k) ∧ interpolate v c = Ok x
           else x = v).
Proof.
  intros (Hvars & Hdisj & Hself). unfold try_key.
  destruct (vars s !! k) as [v|] eqn:Hv; [|by auto].
  destruct (errors s !! k); [|by auto].
  assert (self s !! k = None) as Hk by (apply Hdisj; eauto).
  assert (∀ r, (if is_templated v then interpolate v (self s) = Ok r else r = v) →
    (∀ k' v', delete k (vars s) !! k' = Some v' → vars0 !! k' = Some v')
    ∧ (∀ k', is_Some (delete k (vars s) !! k') → <[k:=r]> (self s) !! k' = None)
    ∧ (∀ k' x, <[k:=r]> (self s) !! k' = Some x →
         ∃ v', vars0 !! k' = Some v'
           ∧ if is_templated v'
             then ∃ c, c ⊆ <[k:=r]> (self s) ∧ interpolate v' c = Ok x
             else x = v')) as Hmove.
  { intros r Hr. split_and!.
    - intros k' v' [_ Hv']%lookup_delete_Some. eauto.
    - intros k' [v' [Hne Hv']%lookup_delete_Some]. rewrite lookup_insert_ne by done.
      apply Hdisj. eauto.
    - intros k' x [[<- <-]|[Hne Hx]]%lookup_insert_Some.
      + exists v. split; [eauto|]. destruct (is_templated v); [|done].
        exists (self s). split; [by apply insert_subseteq|done].
      + destruct (Hself k' x Hx) as (v' & Hv' & Hcase). exists v'. split; [done|].
        destruct (is_templated v'); [|done].
        destruct Hcase as (c & Hc & Hi). exists c. split; [|done].
        etrans; [done|]. by apply insert_subseteq. }
  destruct (is_templated v) eqn:Ht; [destruct (interpolate v (self s)) as [r|e] eqn:Hi|];
    cbn [self vars errors]; [by apply Hmove|by auto|by apply Hmove].
Qed.

Lemma passes_sound (vars0 : gmap string value) n k x :
  self (passes n vars0) !! k = Some x →
  ∃ v, vars0 !! k = Some v
    ∧ if is_templated v
      then ∃ c, c ⊆ self (passes n vars0) ∧ interpolate v c = Ok x
      else x = v.
Proof.
  revert k x. unfold passes.
  apply (iter_pass_ind (λ s,
    (∀ k' v, vars s !! k' = Some v → vars0 !! k' = Some v)
    ∧ (∀ k', is_Some (vars s !! k') → self s !! k' = None)
    ∧ (∀ k' x, self s !! k' = Some x →
         ∃ v, vars0 !! k' = Some v
           ∧ if is_templated v then ∃ c, c ⊆ self s ∧ interpolate v c = Ok x
             else x = v))).
  - intros s k. apply try_key_sound.
  - split_and!; [done|done|]. intros k x Hx. simpl in Hx. by rewrite lookup_empty in Hx.
Qed.

Lemma init_cases (vars0 : gmap string value) :
  let s := passes (S MAX_INTERPOLATION_DEPTH) vars0 in
  (init vars0 = Resolved (self s) ∧ dom (self s) = dom vars0)
  ∨ (init vars0 = Failed (errors s) ∧ errors s ≠ ∅
     ∧ ∀ k, is_Some (errors s !! k) ↔ is_Some (vars0 !! k) ∧ self s !! k = None).
Proof.
  intros s.
  pose proof (invariant_passes vars0 (S MAX_INTERPOLATION_DEPTH)) as Hinv. fold s in Hinv.
  assert (complete s) as Hcomplete by apply complete_pass.
  assert (∀ k, is_Some (errors s !! k) ↔ is_Some (vars0 !! k) ∧ self s !! k = None)
    as Herrors.
  { intros k. split.
    - intros [ie Hie]. destruct (inv_errors _ _ Hinv k ie Hie) as (_ & Hv & Hs).
      split; [|done]. exists (value_ ie). by apply (inv_vars _ _ Hinv).
    - intros [Hk Hs]. apply Hcomplete; [|done].
      destruct (inv_cover _ _ Hinv k Hk) as [?|[? ?]]; [done|congruence]. }
  assert (errors s = ∅ → dom (self s) = dom vars0) as Hdom.
  { intros Hempty. apply set_eq. intros k. rewrite !elem_of_dom. split.
    - apply (inv_self _ _ Hinv).
    - intros Hk. destruct (self s !! k) eqn:Hs; [by eexists|].
      destruct (proj2 (Herrors k) (conj Hk Hs)) as [ie Hie].
      by rewrite Hempty, lookup_empty in Hie. }
  unfold init, expand. fold (start vars0).
  destruct (expand_loop_state (S MAX_INTERPOLATION_DEPTH) (start vars0))
    as [[-> Hnil]| ->]; fold (passes (S MAX_INTERPOLATION_DEPTH) vars0); fold s.
  - left. split; [done|]. apply Hdom. by apply (errors_empty vars0).
  - case_decide as Hsize.
    + left. apply map_size_empty_iff in Hsize. auto.
    + right. split_and!; [done| |done]. intros Hempty. apply Hsize.
      by rewrite Hempty, map_size_empty.
Qed.

(** X2. [Vars] is all or nothing. After the passes of the loop either no key
    is left unexpanded and [Vars] is the context with every raw key, or some
    key is left and [Vars] fails with the errors, which are recorded for
    exactly the keys that are left. *)
Theorem vars_all_or_nothing (vars0 : gmap string value) :
  let s := passes (S MAX_INTERPOLATION_DEPTH) vars0 in
  (init vars0 = Resolved (self s) ∧ dom (self s) = dom vars0)
  ∨ (init vars0 = Failed (errors s) ∧ errors s ≠ ∅
     ∧ ∀ k, is_Some (errors s !! k) ↔ is_Some (vars0 !! k) ∧ self s !! k = None).
Proof. apply init_cases. Qed.

(** X3. When [Vars] resolves, the context has exactly the raw keys; a value
    that is not templated is in it unchanged, and a templated one is in it
    as what it rendered to against a part of the context. *)
Theorem vars_resolved_sound (vars0 : gmap string value) (c : ctx) :
  init vars0 = Resolved c →
  dom c = dom vars0
  ∧ ∀ k v, vars0 !! k = Some v →
      ∃ x, c !! k = Some x
        ∧ if is_templated v then ∃ c', c' ⊆ c ∧ interpolate v c' = Ok x
          else x = v.
Proof.
  intros Hinit.
  destruct (init_cases vars0) as [[Hr Hdom]|[Hf _]]; [|congruence].
  assert (c = self (passes (S MAX_INTERPOLATION_DEPTH) vars0)) as -> by congruence.
  split; [done|].
  intros k v Hv.
  assert (is_Some (self (passes (S MAX_INTERPOLATION_DEPTH) vars0) !! k)) as [x Hx].
  { apply elem_of_dom. rewrite Hdom. apply elem_of_dom. eauto. }
  exists x. split; [done|].
  destruct (passes_sound vars0 _ k x Hx) as (v' & Hv' & Hcase).
  assert (v' = v) as -> by congruence. done.
Qed.

End vars_results.

(** ** Config.Vars: the passes of the loop *)

Section vars_passes.
Context `{Templating}.
Import Config Config.Vars.

Implicit Types (s : state) (k : string).

Lemma vars_first_pass_idle_aux (vars0 : gmap string value) :
  self (passes 1 vars0) = ∅
  ∧ vars (passes 1 vars0) = vars0
  ∧ ∀ k, errors (passes 1 vars0) !! k
         = (λ v, mkInterpolationError k v (KeyError k)) <$> vars0 !! k.
Proof.
  change (passes 1 vars0) with (pass (start vars0)).
  destruct (pass_spec (start vars0)) as (_ & Hatt & Hframe).
  assert (∀ k, self (pass (start vars0)) !! k = None
               ∧ vars (pass (start vars0)) !! k = vars0 !! k
               ∧ errors (pass (start vars0)) !! k
                 = (λ v, mkInterpolationError k v (KeyError k)) <$> vars0 !! k) as Hk.
  { intros k. destruct (decide (k ∈ unexpanded_keys (start vars0))) as [Hu|Hu].
    - destruct (Hatt k Hu) as (v & Hv & Hcase). simpl in Hv, Hcase.
      rewrite lookup_empty in Hcase. destruct Hcase as (-> & -> & ->).
      by rewrite Hv.
    - destruct (Hframe k Hu) as (-> & -> & ->). simpl.
      rewrite !lookup_empty. split_and!; [done..|].
      destruct (vars0 !! k) eqn:Hv; [|done]. exfalso. apply Hu.
      apply elem_of_unexpanded_keys. simpl. rewrite Hv, lookup_empty. eauto. }
  split_and!.
  - apply map_empty. intros k. apply Hk.
  - apply map_eq. intros k. apply Hk.
  - intros k. apply Hk.
Qed.

(** X1. The first pass of the loop resolves no key: [errors] is empty when
    [expand] starts, so [del errors[key]] raises for every key, and all the
    pass does is to record that [KeyError] under every raw key. *)
Theorem vars_first_pass_idle (vars0 : gmap string value) :
  self (passes 1 vars0) = ∅
  ∧ vars (passes 1 vars0) = vars0
  ∧ ∀ k, errors (passes 1 vars0) !! k
         = (λ v, mkInterpolationError k v (KeyError k)) <$> vars0 !! k.
Proof. apply vars_first_pass_idle_aux. Qed.

Lemma passes_self_mono (vars0 : gmap string value) (n m : nat) :
  (n ≤ m)%nat → self (passes n vars0) ⊆ self (passes m vars0).
Proof.
  induction 1 as [|m _ IH]; [done|]. etrans; [exact IH|].
  change (passes (S m) vars0) with (pass (passes m vars0)). apply pass_spec.
Qed.

(** X4. The context only grows: a key resolved after some passes keeps its
    value through all the later ones. *)
Theorem vars_resolved_kept (vars0 : gmap string value) (n m : nat) k x :
  (n ≤ m)%nat →
  self (passes n vars0) !! k = Some x → self (passes m vars0) !! k = Some x.
Proof. intros Hle Hx. eapply lookup_weaken; [done|]. by apply passes_self_mono. Qed.

(** X5. Raw variables none of which is templated resolve to themselves. *)
Theorem vars_plain_resolve (vars0 : gmap string value) :
  (∀ k v, vars0 !! k = Some v → is_templated v = false) →
  init vars0 = Resolved vars0.
Proof.
  intros Hplain.
  apply (init_resolves vars0 vars0 (λ _, 0%nat) 1%nat).
  - done.
  - intros. lia.
  - done.
  - intros k v c Hv Ht. rewrite (Hplain k v Hv) in Ht. done.
  - intros k v c r Hv Ht. rewrite (Hplain k v Hv) in Ht. done.
  - unfold MAX_INTERPOLATION_DEPTH. lia.
Qed.

Lemma unexpanded_keys_sorted s : StronglySorted String.le (unexpanded_keys s).
Proof. apply (StronglySorted_merge_sort String.le). Qed.

(** A key that cannot render while a key sorted after it is missing is not
    resolved by a pass that starts without that key: its turn comes first. *)
Lemma pass_blocked (vars0 : gmap string value) s k k' :
  (∀ k0 v, vars s !! k0 = Some v → vars0 !! k0 = Some v) →
  String.le k k' → k ≠ k' →
  self s !! k = None → self s !! k' = None →
  (∃ v, vars0 !! k = Some v ∧ is_templated v = true
     ∧ ∀ c : ctx, c !! k' = None → ∃ e, interpolate v c = Raise e) →
  self (pass s) !! k = None.
Proof.
  intros Hvars Hle Hne Hk Hk' (v & Hv & Ht & Hfail).
  destruct (decide (k ∈ unexpanded_keys s)) as [Hu|Hu].
  2:{ destruct (pass_spec s) as (_ & _ & Hframe). by destruct (Hframe k Hu) as (-> & _). }
  pose proof (unexpanded_keys_NoDup s) as Hnd.
  pose proof (unexpanded_keys_sorted s) as Hsorted.
  unfold pass. apply list_elem_of_split in Hu as (l1 & l2 & Hl).
  rewrite Hl in Hnd, Hsorted |- *.
  apply NoDup_app in Hnd as (_ & Hl1 & [Hl2 _]%NoDup_cons).
  rewrite foldl_app. simpl.
  destruct (foldl_try_key_other l2 (try_key (foldl try_key s l1) k) k Hl2) as (-> & _).
  assert (k ∉ l1) as Hkl1.
  { intros Hin. apply (Hl1 k Hin). by left. }
  assert (k' ∉ l1) as Hk'l1.
  { intros Hin. apply Hne. apply (anti_symm String.le); [done|].
    eapply (StronglySorted_app_1_elem_of String.le); [done..|by left]. }
  destruct (foldl_try_key_other l1 s k Hkl1) as (Hs1 & Hv1 & _).
  destruct (foldl_try_key_other l1 s k' Hk'l1) as (Hs1' & _).
  set (s1 := foldl try_key s l1) in *.
  unfold try_key. rewrite Hv1. destruct (vars s !! k) as [v'|] eqn:Hv'; [|congruence].
  assert (v' = v) as ->.
  { apply Hvars in Hv'. congruence. }
  destruct (errors s1 !! k); [|simpl; congruence].
  rewrite Ht. destruct (Hfail (self s1)) as [e ->]; [congruence|]. simpl. congruence.
Qed.

(** X6. The depth the loop can resolve. For keys [ks], each after the first
    sorted before its predecessor, templated, and failing to render against
    every context without that predecessor: the key at index [i] is still
    unresolved after [i + 1] passes, since a pass visits the keys in sorted
    order and the first pass resolves nothing. With a key at index
    [MAX_INTERPOLATION_DEPTH], that is eleven such keys, [Vars] fails, and
    that key is among the errors. *)
Theorem vars_depth_limit (vars0 : gmap string value) (ks : list string) :
  (∀ i k k', ks !! i = Some k → ks !! S i = Some k' →
     String.le k' k ∧ k' ≠ k
     ∧ ∃ v, vars0 !! k' = Some v ∧ is_templated v = true
         ∧ ∀ c : ctx, c !! k = None → ∃ e, interpolate v c = Raise e) →
  (∀ i k, ks !! i = Some k → self (passes (S i) vars0) !! k = None)
  ∧ ∀ k, ks !! MAX_INTERPOLATION_DEPTH = Some k →
      init vars0 = Failed (errors (passes (S MAX_INTERPOLATION_DEPTH) vars0))
      ∧ is_Some (errors (passes (S MAX_INTERPOLATION_DEPTH) vars0) !! k).
Proof.
  intros Hks.
  assert (∀ i j k, (i ≤ j)%nat → ks !! j = Some k →
            self (passes (S i) vars0) !! k = None) as Hblocked.
  { induction i as [|i IH]; intros j k Hij Hk.
    - destruct (vars_first_pass_idle_aux vars0) as [-> _]. apply lookup_empty.
    - destruct j as [|j]; [lia|].
      destruct (lookup_lt_is_Some_2 ks j) as [k0 Hk0].
      { apply lookup_lt_Some in Hk. lia. }
      destruct (Hks j k0 k Hk0 Hk) as (Hle & Hne & Hstuck).
      change (passes (S (S i)) vars0) with (pass (passes (S i) vars0)).
      apply (pass_blocked vars0 _ k k0); [|done|done| | |done].
      + apply (inv_vars _ _ (invariant_passes vars0 (S i))).
      + apply (IH (S j)); [lia|done].
      + apply (IH j); [lia|done]. }
  split; [intros i k; by apply Hblocked|].
  intros k Hk.
  pose proof (Hblocked MAX_INTERPOLATION_DEPTH MAX_INTERPOLATION_DEPTH k (le_n _) Hk)
    as Hnone.
  assert (is_Some (vars0 !! k)) as Hin.
  { destruct (lookup_lt_is_Some_2 ks (pred MAX_INTERPOLATION_DEPTH)) as [k0 Hk0].
    { apply lookup_lt_Some in Hk. unfold MAX_INTERPOLATION_DEPTH in *. simpl. lia. }
    destruct (Hks _ k0 k Hk0 Hk) as (_ & _ & v & Hv & _). eauto. }
  destruct (init_cases vars0) as [[_ Hdom]|(Hf & _ & Herr)].
  - exfalso. apply (not_elem_of_dom_2 _ _ Hnone). rewrite Hdom. by apply elem_of_dom.
  - split; [done|]. by apply Herr.
Qed.

End vars_passes.
